(** * A fixed-capacity binary min-heap over two typed arrays

    Shallow embedding of [src/heapify.ts] (class [MinQueue]) and proofs of
    its heap invariant, its pop order and its error behaviour.

    Numbers are modelled as integers ([Z]); the two backing stores are
    integer typed arrays, whose element conversion on every write is part
    of the model.  The floating point array types are left out. *)

From Stdlib Require Import ZArith Lia Sorted.
From stdpp Require Import base list strings pretty.

Local Open Scope Z_scope.

(** ** The fragment of JavaScript the queue relies on *)
Module JS.

(** What an array read yields: a number, or [undefined] when the index
    is outside the array. *)
Definition value : Type := option Z.
Definition undefined : value := None.

(** Relational operators: a comparison with [undefined] goes through
    [NaN] and is false. *)
Definition lt (a b : value) : bool :=
  match a, b with Some x, Some y => x <? y | _, _ => false end.
Definition le (a b : value) : bool :=
  match a, b with Some x, Some y => x <=? y | _, _ => false end.
Definition ge (a b : value) : bool :=
  match a, b with Some x, Some y => y <=? x | _, _ => false end.

Definition ToUint32 (x : Z) : Z := x mod 2 ^ 32.
Definition ToInt32 (x : Z) : Z := (x + 2 ^ 31) mod 2 ^ 32 - 2 ^ 31.

(** [x >>> n] and [x << n], for a shift count [0 <= n < 32]. *)
Definition ushr (x n : Z) : Z := Z.shiftr (ToUint32 x) n.
Definition shl (x n : Z) : Z := ToInt32 (Z.shiftl (ToInt32 x) n).

Inductive exception : Type :=
| Error (message : string)
| RangeError (message : string).

(** Plain arrays ([number[]], [Array(n)]): a hole reads as [undefined],
    and a write past the end extends the array. *)
Definition array : Type := list value.

Definition Array (n : Z) : exception + array :=
  if (0 <=? n) && (n <? 2 ^ 32)
  then inr (replicate (Z.to_nat n) undefined)
  else inl (RangeError "Invalid array length").

Definition array_set (a : array) (i : nat) (v : value) : array :=
  if (i <? List.length a)%nat then <[i := v]> a
  else a ++ replicate (i - List.length a) undefined ++ [v].

(** [String(v)] as [join] uses it: [undefined] and holes give the empty
    string, integers their decimal digits. *)
Definition to_string (v : value) : string :=
  match v with Some x => pretty x | None => "" end.

Definition join (sep : string) (a : array) : string :=
  String.concat sep (to_string <$> a).

End JS.

(** ** Integer typed arrays *)
Module TypedArray.

Inductive kind : Type :=
| Int8Array | Uint8Array | Uint8ClampedArray
| Int16Array | Uint16Array | Int32Array | Uint32Array.

Definition wrap_unsigned (w x : Z) : Z := x mod 2 ^ w.
Definition wrap_signed (w x : Z) : Z :=
  (x + 2 ^ (w - 1)) mod 2 ^ w - 2 ^ (w - 1).

(** The conversion an integer undergoes when stored. *)
Definition coerce (k : kind) (x : Z) : Z :=
  match k with
  | Int8Array => wrap_signed 8 x
  | Uint8Array => wrap_unsigned 8 x
  | Uint8ClampedArray => Z.max 0 (Z.min 255 x)
  | Int16Array => wrap_signed 16 x
  | Uint16Array => wrap_unsigned 16 x
  | Int32Array => wrap_signed 32 x
  | Uint32Array => wrap_unsigned 32 x
  end.

(** Storing [undefined] stores [NaN], which an integer array turns
    into 0. *)
Definition store (k : kind) (v : JS.value) : Z :=
  match v with Some x => coerce k x | None => 0 end.

Record t : Type := { elt : kind; data : list Z }.

(** [new K(n)]: [n] zeros. *)
Definition alloc (k : kind) (n : Z) : t :=
  {| elt := k; data := replicate (Z.to_nat n) 0 |}.

(** [a[i]]: out of range reads give [undefined]. *)
Definition get (a : t) (i : Z) : JS.value :=
  if 0 <=? i then data a !! Z.to_nat i else None.

(** [a[i] = v]: out of range writes are dropped. *)
Definition set (a : t) (i : Z) (v : JS.value) : t :=
  if 0 <=? i
  then {| elt := elt a; data := <[Z.to_nat i := store (elt a) v]> (data a) |}
  else a.

End TypedArray.

(** ** The queue *)
Module MinQueue.
Import TypedArray.

Definition ROOT_INDEX : Z := 1.

Record t : Type := {
  _capacity : Z;
  _keys : TypedArray.t;
  _priorities : TypedArray.t;
  length : Z;
  _hasPoppedElement : bool
}.

Definition with_length (s : t) (n : Z) : t :=
  {| _capacity := _capacity s; _keys := _keys s;
     _priorities := _priorities s; length := n;
     _hasPoppedElement := _hasPoppedElement s |}.

Definition with_hasPoppedElement (s : t) (b : bool) : t :=
  {| _capacity := _capacity s; _keys := _keys s;
     _priorities := _priorities s; length := length s;
     _hasPoppedElement := b |}.

(** The statement pair [this._keys[i] = key; this._priorities[i] = priority]. *)
Definition write (s : t) (i : Z) (key priority : JS.value) : t :=
  {| _capacity := _capacity s;
     _keys := set (_keys s) i key;
     _priorities := set (_priorities s) i priority;
     length := length s;
     _hasPoppedElement := _hasPoppedElement s |}.

(** How a method call ends.  [OutOfFuel] is the model's account of a
    loop that was cut off; the theorems below show it does not occur. *)
Inductive outcome (A : Type) : Type :=
| Return (a : A) (s : t)
| Throw (e : JS.exception) (s : t)
| OutOfFuel.
Arguments Return {A} a s.
Arguments Throw {A} e s.
Arguments OutOfFuel {A}.

Inductive construction : Type :=
| Constructed (s : t)
| ConstructionThrows (e : JS.exception)
| ConstructionOutOfFuel.

(** One turn of a [while] loop either leaves it or goes on. *)
Inductive control : Type :=
| Break
| Continue (s : t) (index : Z).

Definition capacity (s : t) : Z := _capacity s.
Definition size (s : t) : Z := length s.

Definition clear (s : t) : outcome unit :=
  let s := with_length s 0 in
  Return tt (with_hasPoppedElement s false).

(** *** bubbleUp *)
Definition bubbleUp_body (s : t) (priority : JS.value) (index : Z) : control :=
  let parentIndex := JS.ushr index 1 in
  if JS.le (get (_priorities s) parentIndex) priority then Break
  else
    Continue
      (write s index (get (_keys s) parentIndex) (get (_priorities s) parentIndex))
      parentIndex.

Fixpoint bubbleUp_loop (fuel : nat) (s : t) (priority : JS.value) (index : Z)
  : option (t * Z) :=
  match fuel with
  | O => None
  | S fuel =>
      if ROOT_INDEX <? index then
        match bubbleUp_body s priority index with
        | Break => Some (s, index)
        | Continue s index => bubbleUp_loop fuel s priority index
        end
      else Some (s, index)
  end.

Definition bubbleUp (s : t) (index : Z) : option t :=
  let key := get (_keys s) index in
  let priority := get (_priorities s) index in
  match bubbleUp_loop (S (Z.to_nat index)) s priority index with
  | Some (s, index) => Some (write s index key priority)
  | None => None
  end.

(** *** bubbleDown *)
Definition bubbleDown_body (s : t) (priority : JS.value) (lastIndex index : Z)
  : control :=
  let left := JS.shl index 1 in
  let childPriority := get (_priorities s) left in
  let childKey := get (_keys s) left in
  let childIndex := left in
  let right := left + 1 in
  let '(childPriority, childKey, childIndex) :=
    if right <? lastIndex then
      let rightPriority := get (_priorities s) right in
      if JS.lt rightPriority childPriority
      then (rightPriority, get (_keys s) right, right)
      else (childPriority, childKey, childIndex)
    else (childPriority, childKey, childIndex) in
  if JS.ge childPriority priority then Break
  else Continue (write s index childKey childPriority) childIndex.

Fixpoint bubbleDown_loop (fuel : nat) (s : t) (priority : JS.value)
    (halfLength lastIndex index : Z) : option (t * Z) :=
  match fuel with
  | O => None
  | S fuel =>
      if index <? halfLength then
        match bubbleDown_body s priority lastIndex index with
        | Break => Some (s, index)
        | Continue s index =>
            bubbleDown_loop fuel s priority halfLength lastIndex index
        end
      else Some (s, index)
  end.

Definition bubbleDown (s : t) (index : Z) : option t :=
  let key := get (_keys s) index in
  let priority := get (_priorities s) index in
  let halfLength := ROOT_INDEX + JS.ushr (length s) 1 in
  let lastIndex := length s + ROOT_INDEX in
  match
    bubbleDown_loop (S (Z.to_nat (halfLength - index))) s priority
      halfLength lastIndex index
  with
  | Some (s, index) => Some (write s index key priority)
  | None => None
  end.

(** *** The constructor *)
Definition copy_loop (keys priorities : list Z) (ks ps : TypedArray.t)
  : TypedArray.t * TypedArray.t :=
  foldl
    (fun '(ks, ps) (i : nat) =>
       (set ks (Z.of_nat i + ROOT_INDEX) (keys !! i),
        set ps (Z.of_nat i + ROOT_INDEX) (priorities !! i)))
    (ks, ps) (seq 0 (List.length keys)).

(** [for (let i = n; i >= ROOT_INDEX; i--) this.bubbleDown(i)] *)
Fixpoint heapify_loop (n : nat) (s : t) : option t :=
  match n with
  | O => Some s
  | S m =>
      match bubbleDown s (Z.of_nat (S m)) with
      | Some s => heapify_loop m s
      | None => None
      end
  end.

Definition new (capacity : Z) (keys priorities : list Z)
    (KeysBackingArrayType PrioritiesBackingArrayType : kind) : construction :=
  if capacity + ROOT_INDEX <? 0
  then ConstructionThrows (JS.RangeError "Invalid typed array length")
  else
    let ks := alloc KeysBackingArrayType (capacity + ROOT_INDEX) in
    let ps := alloc PrioritiesBackingArrayType (capacity + ROOT_INDEX) in
    if negb (Z.of_nat (List.length keys) =? Z.of_nat (List.length priorities))
    then ConstructionThrows
           (JS.Error "Number of keys does not match number of priorities provided.")
    else if capacity <? Z.of_nat (List.length keys)
    then ConstructionThrows (JS.Error "Capacity less than number of provided keys.")
    else
      let '(ks, ps) := copy_loop keys priorities ks ps in
      let s := {| _capacity := capacity; _keys := ks; _priorities := ps;
                  length := Z.of_nat (List.length keys);
                  _hasPoppedElement := false |} in
      match
        heapify_loop (Z.to_nat (JS.ushr (Z.of_nat (List.length keys)) 1)) s
      with
      | Some s => Constructed s
      | None => ConstructionOutOfFuel
      end.

(** *** push, pop, peek *)
Definition push (s : t) (key priority : Z) : outcome unit :=
  if length s =? _capacity s
  then Throw (JS.Error "Heap has reached capacity, can't push new items") s
  else if _hasPoppedElement s then
    let s := write s ROOT_INDEX (Some key) (Some priority) in
    let s := with_length s (length s + 1) in
    match bubbleDown s ROOT_INDEX with
    | Some s => Return tt (with_hasPoppedElement s false)
    | None => OutOfFuel
    end
  else
    let pos := length s + ROOT_INDEX in
    let s := write s pos (Some key) (Some priority) in
    let s := with_length s (length s + 1) in
    match bubbleUp s pos with
    | Some s => Return tt s
    | None => OutOfFuel
    end.

Definition removePoppedElement (s : t) : option t :=
  if _hasPoppedElement s then
    let s :=
      write s ROOT_INDEX
        (get (_keys s) (length s + ROOT_INDEX))
        (get (_priorities s) (length s + ROOT_INDEX)) in
    match bubbleDown s ROOT_INDEX with
    | Some s => Some (with_hasPoppedElement s false)
    | None => None
    end
  else Some s.

Definition pop (s : t) : outcome JS.value :=
  if length s =? 0 then Return JS.undefined s
  else
    match removePoppedElement s with
    | Some s =>
        let s := with_length s (length s - 1) in
        let s := with_hasPoppedElement s true in
        Return (get (_keys s) ROOT_INDEX) s
    | None => OutOfFuel
    end.

Definition peekPriority (s : t) : outcome JS.value :=
  match removePoppedElement s with
  | Some s => Return (get (_priorities s) ROOT_INDEX) s
  | None => OutOfFuel
  end.

Definition peek (s : t) : outcome JS.value :=
  match removePoppedElement s with
  | Some s => Return (get (_keys s) ROOT_INDEX) s
  | None => OutOfFuel
  end.

(** *** dumpRawPriorities *)
Definition dump_loop (s : t) (result : JS.array) : JS.array :=
  foldl
    (fun result i =>
       JS.array_set result (Z.to_nat i) (get (_priorities s) (i + ROOT_INDEX)))
    result (seqZ 0 (length s)).

Definition dumpRawPriorities (s : t) : outcome string :=
  match removePoppedElement s with
  | None => OutOfFuel
  | Some s =>
      match JS.Array (length s - ROOT_INDEX) with
      | inl e => Throw e s
      | inr result =>
          let result := dump_loop s result in
          Return ("[" +:+ JS.join " " result +:+ "]") s
      end
  end.


End MinQueue.

Import TypedArray MinQueue.

(** ** States a program can reach

    The public surface of the class: the constructor, then any sequence
    of method calls.  A call that throws leaves the object in the state
    it had when the exception was raised. *)
Definition after {A : Type} (o : outcome A) (s' : t) : Prop :=
  match o with
  | Return _ s => s = s'
  | Throw _ s => s = s'
  | OutOfFuel => False
  end.

Inductive method : Type :=
| Push (key priority : Z)
| Pop
| Peek
| PeekPriority
| Clear
| DumpRawPriorities.

Definition call (m : method) (s : t) (s' : t) : Prop :=
  match m with
  | Push key priority => after (push s key priority) s'
  | Pop => after (pop s) s'
  | Peek => after (peek s) s'
  | PeekPriority => after (peekPriority s) s'
  | Clear => after (clear s) s'
  | DumpRawPriorities => after (dumpRawPriorities s) s'
  end.

Inductive reachable : t -> Prop :=
| reachable_new capacity keys priorities K P s :
    new capacity keys priorities K P = Constructed s -> reachable s
| reachable_call m s s' :
    reachable s -> call m s s' -> reachable s'.

(** ** Reading the two stores *)

Definition key (s : t) (i : Z) : Z := default 0 (get (_keys s) i).
Definition pri (s : t) (i : Z) : Z := default 0 (get (_priorities s) i).

(** The index-aligned pairs, position 0 included. *)
Definition entries (s : t) : list (Z * Z) :=
  zip (data (_keys s)) (data (_priorities s)).

Definition slice {A : Type} (l : list A) (from count : Z) : list A :=
  take (Z.to_nat count) (drop (Z.to_nat from) l).

(** Number of occupied positions: the root slot still counts while its
    deletion is pending. *)
Definition occupied (s : t) : Z :=
  if _hasPoppedElement s then length s + 1 else length s.

(** The logical content: the pairs the queue still holds. *)
Definition live (s : t) : list (Z * Z) :=
  if _hasPoppedElement s
  then slice (entries s) (ROOT_INDEX + 1) (length s)
  else slice (entries s) ROOT_INDEX (length s).

(** Every element of a store is a fixed point of its conversion. *)
Definition stored (a : TypedArray.t) : Prop :=
  Forall (fun x => coerce (elt a) x = x) (data a).

Record shape (s : t) : Prop := {
  shape_capacity : 0 <= _capacity s < 2 ^ 31;
  shape_keys : List.length (data (_keys s)) = Z.to_nat (_capacity s + 1);
  shape_priorities :
    List.length (data (_priorities s)) = Z.to_nat (_capacity s + 1);
  shape_keys_stored : stored (_keys s);
  shape_priorities_stored : stored (_priorities s)
}.

(** Heap order on the edges whose parent is at [lo] or beyond. *)
Definition heap_from (s : t) (lo n : Z) : Prop :=
  forall i, lo <= i / 2 -> i <= n -> pri s (i / 2) <= pri s i.

Record wf (s : t) : Prop := {
  wf_shape : shape s;
  wf_length : 0 <= length s <= _capacity s;
  wf_pending : _hasPoppedElement s = true -> length s < _capacity s;
  wf_heap : heap_from s ROOT_INDEX (occupied s)
}.

(** Same object apart from the contents of the two stores. *)
Definition same_frame (s s' : t) : Prop :=
  _capacity s' = _capacity s /\ length s' = length s /\
  _hasPoppedElement s' = _hasPoppedElement s /\
  elt (_keys s') = elt (_keys s) /\ elt (_priorities s') = elt (_priorities s).


(** Pushing a list of pairs in order; stops at the first call that does
    not return. *)
Fixpoint push_all (s : t) (l : list (Z * Z)) : outcome unit :=
  match l with
  | [] => Return tt s
  | (k, p) :: l =>
      match push s k p with
      | Return _ s => push_all s l
      | o => o
      end
  end.

(** The state of the loop of [bubbleDown s0 start]: the pair taken out of
    [start] is held aside, position [i] is the hole it will be written to.
    With the hole filled, the store is a rearrangement of the original one
    inside [start..length], and the only edges that may be out of order are
    those below the hole. *)
Record down_inv (s0 : t) (start : Z) (s : t) (i : Z) : Prop := {
  di_shape : shape s;
  di_frame : same_frame s0 s;
  di_lo : start <= i;
  di_hi : i <= length s0 \/ i = start;
  di_perm :
    entries (write s i (Some (key s0 start)) (Some (pri s0 start)))
    ≡ₚ entries s0;
  di_outside :
    forall j : nat,
      (j < Z.to_nat start \/ Z.to_nat (length s0) < j)%nat ->
      entries (write s i (Some (key s0 start)) (Some (pri s0 start))) !! j
      = entries s0 !! j;
  di_edges :
    forall j, start <= j / 2 -> j <= length s0 -> j / 2 <> i ->
      pri s (j / 2) <= (if j =? i then pri s0 start else pri s j);
  di_grand :
    forall c, c / 2 = i -> c <= length s0 -> start <= i / 2 ->
      pri s (i / 2) <= pri s c
}.

(** The state of the loop of [bubbleUp s0 (length s0)]; the hole [i]
    moves towards the root, and the only edge that may be out of order is
    the one above the hole. *)
Record up_inv (s0 s : t) (i : Z) : Prop := {
  ui_shape : shape s;
  ui_frame : same_frame s0 s;
  ui_range : 1 <= i <= length s0;
  ui_perm :
    entries (write s i (Some (key s0 (length s0))) (Some (pri s0 (length s0))))
    ≡ₚ entries s0;
  ui_outside :
    forall j : nat,
      (j < 1 \/ Z.to_nat (length s0) < j)%nat ->
      entries (write s i (Some (key s0 (length s0))) (Some (pri s0 (length s0)))) !! j
      = entries s0 !! j;
  ui_edges :
    forall j, 2 <= j <= length s0 -> j <> i ->
      (if j / 2 =? i then pri s0 (length s0) else pri s (j / 2)) <= pri s j;
  ui_grand :
    forall c, c / 2 = i -> c <= length s0 -> 2 <= i ->
      pri s (i / 2) <= pri s c
}.

Record bounds (s : t) : Prop := {
  bounds_capacity : 0 <= _capacity s;
  bounds_keys : List.length (data (_keys s)) = Z.to_nat (_capacity s + 1);
  bounds_priorities :
    List.length (data (_priorities s)) = Z.to_nat (_capacity s + 1);
  bounds_length : 0 <= length s <= _capacity s;
  bounds_pending : _hasPoppedElement s = true -> length s < _capacity s
}.

Definition same_extent (s s' : t) : Prop :=
  same_frame s s' /\
  List.length (data (_keys s')) = List.length (data (_keys s)) /\
  List.length (data (_priorities s')) = List.length (data (_priorities s)).

Definition copy_one (src : list Z) (a : TypedArray.t) (m : nat) : TypedArray.t :=
  foldl (fun a (i : nat) => set a (Z.of_nat i + ROOT_INDEX) (src !! i)) a (seq 0 m).






(** An empty queue of the given capacity over two [Uint32Array]s, as
    [new MinQueue(capacity)] builds it. *)
Definition empty_queue (capacity : Z) : t :=
  {| _capacity := capacity;
     _keys := alloc Uint32Array (capacity + ROOT_INDEX);
     _priorities := alloc Uint32Array (capacity + ROOT_INDEX);
     length := 0;
     _hasPoppedElement := false |}.

(** The queue of capacity 1 after [push(1, 10)]: it is full. *)
Definition full_queue : t :=
  {| _capacity := 1;
     _keys := {| elt := Uint32Array; data := [0; 1] |};
     _priorities := {| elt := Uint32Array; data := [0; 10] |};
     length := 1;
     _hasPoppedElement := false |}.

(** The object as the constructor has it after the copy loop and the
    assignment of [length], before the heapify loop. *)
Definition copied (c : Z) (keys priorities : list Z) (K P : kind) : t :=
  let '(ks, ps) :=
    copy_loop keys priorities (alloc K (c + ROOT_INDEX)) (alloc P (c + ROOT_INDEX)) in
  {| _capacity := c; _keys := ks; _priorities := ps;
     length := Z.of_nat (List.length keys);
     _hasPoppedElement := false |}.

(** The same queue after [pop()]: empty, with the deletion pending. *)
Definition drained_queue : t :=
  {| _capacity := 1;
     _keys := {| elt := Uint32Array; data := [0; 1] |};
     _priorities := {| elt := Uint32Array; data := [0; 10] |};
     length := 0;
     _hasPoppedElement := true |}.

(** The queue of capacity 2 after [push(1, 3)]. *)
Definition single_queue : t :=
  {| _capacity := 2;
     _keys := {| elt := Uint32Array; data := [0; 1; 0] |};
     _priorities := {| elt := Uint32Array; data := [0; 3; 0] |};
     length := 1;
     _hasPoppedElement := false |}.

(** The queue of capacity 2 after [push(1, 3)] and [push(2, 5)]. *)
Definition pair_queue : t :=
  {| _capacity := 2;
     _keys := {| elt := Uint32Array; data := [0; 1; 2] |};
     _priorities := {| elt := Uint32Array; data := [0; 3; 5] |};
     length := 2;
     _hasPoppedElement := false |}.

(** The values an array of each kind can hold. *)
Definition in_range (k : kind) (x : Z) : Prop :=
  match k with
  | Int8Array => -128 <= x <= 127
  | Uint8Array => 0 <= x <= 255
  | Uint8ClampedArray => 0 <= x <= 255
  | Int16Array => -32768 <= x <= 32767
  | Uint16Array => 0 <= x <= 65535
  | Int32Array => -2147483648 <= x <= 2147483647
  | Uint32Array => 0 <= x <= 4294967295
  end.



(** [pair_queue] after [pop()]: one pair left, the deletion pending. *)
Definition pending_queue : t :=
  {| _capacity := 2;
     _keys := {| elt := Uint32Array; data := [0; 1; 2] |};
     _priorities := {| elt := Uint32Array; data := [0; 3; 5] |};
     length := 1;
     _hasPoppedElement := true |}.

(** [pending_queue] once the deletion is resolved. *)
Definition settled_queue : t :=
  {| _capacity := 2;
     _keys := {| elt := Uint32Array; data := [0; 2; 2] |};
     _priorities := {| elt := Uint32Array; data := [0; 5; 5] |};
     length := 1;
     _hasPoppedElement := false |}.

(** [pending_queue] after [push(3, 4)]: the new pair took the root slot. *)
Definition refilled_queue : t :=
  {| _capacity := 2;
     _keys := {| elt := Uint32Array; data := [0; 3; 2] |};
     _priorities := {| elt := Uint32Array; data := [0; 4; 5] |};
     length := 2;
     _hasPoppedElement := false |}.

Ltac zlia := Z.div_mod_to_equations; lia.

(** ** Bit operations on indices *)

Lemma ushr_1 x : 0 <= x < 2 ^ 32 -> JS.ushr x 1 = x / 2.
Proof.
  intros H. unfold JS.ushr, JS.ToUint32.
  rewrite Z.mod_small by lia. now rewrite Z.shiftr_div_pow2 by lia.
Qed.

Lemma shl_1 x : 0 <= x < 2 ^ 30 -> JS.shl x 1 = 2 * x.
Proof.
  intros H. unfold JS.shl, JS.ToInt32.
  replace ((x + 2 ^ 31) mod 2 ^ 32) with (x + 2 ^ 31) by (rewrite Z.mod_small; lia).
  rewrite Z.shiftl_mul_pow2 by lia.
  rewrite Z.mod_small by lia. lia.
Qed.

(** ** Typed array reads and writes *)

Lemma coerce_idem k x : coerce k (coerce k x) = coerce k x.
Proof.
  destruct k; unfold coerce, wrap_signed, wrap_unsigned; try zlia.
Qed.

Lemma coerce_0 k : coerce k 0 = 0.
Proof. now destruct k. Qed.

Lemma store_fixed k v : coerce k (store k v) = store k v.
Proof. destruct v; simpl; [apply coerce_idem | apply coerce_0]. Qed.

Lemma get_set_ne a i j v : i <> j -> get (set a i v) j = get a j.
Proof.
  intros Hne. unfold get, set.
  destruct (Z.leb_spec 0 i), (Z.leb_spec 0 j); simpl; try done.
  apply list_lookup_insert_ne. lia.
Qed.

Lemma get_set_eq a i v :
  0 <= i -> (Z.to_nat i < List.length (data a))%nat ->
  get (set a i v) i = Some (store (elt a) v).
Proof.
  intros Hi Hlen. unfold get, set.
  destruct (Z.leb_spec 0 i); [|lia]. simpl.
  now apply list_lookup_insert_eq.
Qed.

Lemma get_in_range a i :
  0 <= i -> (Z.to_nat i < List.length (data a))%nat ->
  get a i = Some (default 0 (get a i)).
Proof.
  intros Hi Hlen. unfold get. destruct (Z.leb_spec 0 i); [|lia].
  destruct (lookup_lt_is_Some_2 (data a) (Z.to_nat i) Hlen) as [x ->]. done.
Qed.

Lemma length_set a i v : List.length (data (set a i v)) = List.length (data a).
Proof. unfold set. destruct (0 <=? i); simpl; [apply length_insert | done]. Qed.

Lemma elt_set a i v : elt (set a i v) = elt a.
Proof. unfold set. now destruct (0 <=? i). Qed.

Lemma stored_set a i v : stored a -> stored (set a i v).
Proof.
  unfold stored, set. intros H. destruct (0 <=? i); simpl; [|done].
  apply Forall_insert; [done | apply store_fixed].
Qed.

Lemma stored_get a i x : stored a -> get a i = Some x -> coerce (elt a) x = x.
Proof.
  unfold stored, get. intros H Hx. destruct (0 <=? i); [|done].
  rewrite Forall_lookup in H. eauto.
Qed.

(** ** The paired write *)

Lemma shape_write s i k p : shape s -> shape (write s i k p).
Proof.
  intros [H1 H2 H3 H4 H5]. split; simpl; rewrite ?length_set;
    auto using stored_set.
Qed.

Lemma same_frame_refl s : same_frame s s.
Proof. now repeat split. Qed.

Lemma same_frame_write s s' i k p :
  same_frame s s' -> same_frame s (write s' i k p).
Proof.
  intros (H1 & H2 & H3 & H4 & H5). repeat split; simpl; rewrite ?elt_set; done.
Qed.

Lemma same_frame_trans s1 s2 s3 :
  same_frame s1 s2 -> same_frame s2 s3 -> same_frame s1 s3.
Proof.
  intros (H1 & H2 & H3 & H4 & H5) (G1 & G2 & G3 & G4 & G5).
  repeat split; congruence.
Qed.

Lemma in_range_keys s i :
  shape s -> 0 <= i <= _capacity s ->
  (Z.to_nat i < List.length (data (_keys s)))%nat.
Proof. intros [H1 H2 H3 H4 H5] Hi. lia. Qed.

Lemma in_range_priorities s i :
  shape s -> 0 <= i <= _capacity s ->
  (Z.to_nat i < List.length (data (_priorities s)))%nat.
Proof. intros [H1 H2 H3 H4 H5] Hi. lia. Qed.

Lemma get_key s i :
  shape s -> 0 <= i <= _capacity s -> get (_keys s) i = Some (key s i).
Proof.
  intros Hs Hi. apply get_in_range; [lia | now apply in_range_keys].
Qed.

Lemma get_pri s i :
  shape s -> 0 <= i <= _capacity s -> get (_priorities s) i = Some (pri s i).
Proof.
  intros Hs Hi. apply get_in_range; [lia | now apply in_range_priorities].
Qed.

Lemma key_fixed s i :
  shape s -> 0 <= i <= _capacity s -> coerce (elt (_keys s)) (key s i) = key s i.
Proof.
  intros Hs Hi. eapply stored_get; [apply Hs | now apply get_key].
Qed.

Lemma pri_fixed s i :
  shape s -> 0 <= i <= _capacity s ->
  coerce (elt (_priorities s)) (pri s i) = pri s i.
Proof.
  intros Hs Hi. eapply stored_get; [apply Hs | now apply get_pri].
Qed.

Lemma pri_write_ne s i j k p : i <> j -> pri (write s i k p) j = pri s j.
Proof. intros H. unfold pri. simpl. now rewrite get_set_ne. Qed.

Lemma pri_write_eq s i k p :
  shape s -> 0 <= i <= _capacity s ->
  pri (write s i k p) i = store (elt (_priorities s)) p.
Proof.
  intros Hs Hi. unfold pri. simpl.
  rewrite get_set_eq; [done | lia | now apply in_range_priorities].
Qed.

Lemma entries_write s i k p :
  0 <= i ->
  entries (write s i k p) =
  <[Z.to_nat i := (store (elt (_keys s)) k, store (elt (_priorities s)) p)]>
    (entries s).
Proof.
  intros Hi. unfold entries, write, set. simpl.
  destruct (Z.leb_spec 0 i); [|lia]. simpl.
  symmetry. apply (insert_zip_with pair).
Qed.

Lemma length_entries s :
  shape s -> List.length (entries s) = Z.to_nat (_capacity s + 1).
Proof.
  intros [H1 H2 H3 H4 H5]. unfold entries.
  rewrite length_zip_with_l_eq; lia.
Qed.

Lemma entries_lookup s i :
  shape s -> 0 <= i <= _capacity s ->
  entries s !! Z.to_nat i = Some (key s i, pri s i).
Proof.
  intros Hs Hi. unfold entries.
  rewrite lookup_zip_with.
  pose proof (get_key s i Hs Hi) as Hk. pose proof (get_pri s i Hs Hi) as Hp.
  unfold get in Hk, Hp. destruct (Z.leb_spec 0 i); [|lia].
  rewrite Hk, Hp. done.
Qed.

(** Writing back what a slot already holds changes nothing. *)
Lemma write_same s i :
  shape s -> 0 <= i <= _capacity s ->
  entries (write s i (Some (key s i)) (Some (pri s i))) = entries s.
Proof.
  intros Hs Hi. rewrite entries_write by lia. simpl.
  rewrite key_fixed, pri_fixed by done.
  apply list_insert_id. now apply entries_lookup.
Qed.

(** Exchanging the hole with one of its neighbours: the values held
    are the same up to order. *)
Lemma hole_moves s i c k p :
  shape s -> 0 <= i <= _capacity s -> 0 <= c <= _capacity s -> i <> c ->
  coerce (elt (_keys s)) k = k -> coerce (elt (_priorities s)) p = p ->
  entries (write (write s i (Some (key s c)) (Some (pri s c))) c (Some k) (Some p))
  ≡ₚ entries (write s i (Some k) (Some p)).
Proof.
  intros Hs Hi Hc Hne Hk Hp.
  rewrite !entries_write by lia. simpl. rewrite !elt_set.
  rewrite key_fixed, pri_fixed, Hk, Hp by done.
  set (E := entries s).
  assert (HEi : <[Z.to_nat i := (k, p)]> E !! Z.to_nat i = Some (k, p)).
  { apply list_lookup_insert_eq. unfold E. rewrite length_entries by done. lia. }
  assert (HEc : <[Z.to_nat i := (k, p)]> E !! Z.to_nat c = Some (key s c, pri s c)).
  { rewrite list_lookup_insert_ne by lia. now apply entries_lookup. }
  rewrite <- (list_insert_insert_eq E (Z.to_nat i) (key s c, pri s c) (k, p)).
  exact (Permutation_insert_swap _ _ _ _ _ HEi HEc).
Qed.

Lemma pri_fill s i k p x :
  shape s -> 0 <= i <= _capacity s -> coerce (elt (_priorities s)) p = p ->
  pri (write s i k (Some p)) x = if x =? i then p else pri s x.
Proof.
  intros Hs Hi Hp. destruct (Z.eqb_spec x i) as [->|Hne].
  - rewrite pri_write_eq by done. exact Hp.
  - apply pri_write_ne. congruence.
Qed.

(** ** bubbleDown *)

(** The loop rule: what holds before the loop and is kept by every turn
    that goes on holds when the loop is left, and the loop is left either
    past [halfLength] or by [break]. *)
Lemma bubbleDown_loop_rule (I : t -> Z -> Prop) priority hl li :
  (forall s i s' i',
      I s i -> i < hl -> bubbleDown_body s priority li i = Continue s' i' ->
      I s' i') ->
  forall fuel s i s' i',
    bubbleDown_loop fuel s priority hl li i = Some (s', i') -> I s i ->
    I s' i' /\ (i' < hl -> bubbleDown_body s' priority li i' = Break).
Proof.
  intros Hstep fuel. induction fuel as [|fuel IH]; intros s i s' i' Hrun HI.
  - discriminate.
  - simpl in Hrun. destruct (Z.ltb_spec i hl) as [Hlt|Hge].
    + destruct (bubbleDown_body s priority li i) as [|s1 i1] eqn:Hbody.
      * injection Hrun as <- <-. split; [done | intros _; exact Hbody].
      * eapply IH; [exact Hrun | eapply Hstep; eassumption].
    + injection Hrun as <- <-. split; [done | lia].
Qed.

(** One turn of the loop inside the occupied range: the smaller child
    [c] is compared with the held priority. *)
Lemma bubbleDown_body_spec s p i :
  shape s -> 0 <= length s <= _capacity s ->
  1 <= i -> i < ROOT_INDEX + length s / 2 ->
  exists c,
    (c = 2 * i \/ c = 2 * i + 1) /\ c <= length s /\
    (forall c', c' / 2 = i -> c' <= length s -> pri s c <= pri s c') /\
    bubbleDown_body s (Some p) (length s + ROOT_INDEX) i =
      if p <=? pri s c then Break
      else Continue (write s i (Some (key s c)) (Some (pri s c))) c.
Proof.
  intros Hs Hlen Hi Hhalf. unfold ROOT_INDEX in *.
  pose proof (shape_capacity s Hs) as Hcap.
  assert (Hleft : 2 * i <= length s) by zlia.
  unfold bubbleDown_body. rewrite shl_1 by lia.
  rewrite (get_pri s (2 * i)), (get_key s (2 * i)) by (done || lia).
  destruct (Z.ltb_spec (2 * i + 1) (length s + 1)) as [Hr|Hr].
  - rewrite (get_pri s (2 * i + 1)), (get_key s (2 * i + 1)) by (done || lia).
    simpl. destruct (Z.ltb_spec (pri s (2 * i + 1)) (pri s (2 * i))) as [Hlt|Hge].
    + exists (2 * i + 1). split; [lia | split; [lia | split; [|done]]].
      intros c' Hc' _. assert (c' = 2 * i \/ c' = 2 * i + 1) as [->| ->] by zlia; lia.
    + exists (2 * i). split; [lia | split; [lia | split; [|done]]].
      intros c' Hc' _. assert (c' = 2 * i \/ c' = 2 * i + 1) as [->| ->] by zlia; lia.
  - exists (2 * i). split; [lia | split; [lia | split; [|done]]].
    intros c' Hc' Hn. assert (c' = 2 * i) as -> by zlia. lia.
Qed.

Lemma bubbleDown_loop_terminates fuel s p i :
  shape s -> 0 <= length s <= _capacity s -> 1 <= i ->
  (Z.to_nat (ROOT_INDEX + length s / 2 - i) < fuel)%nat ->
  is_Some
    (bubbleDown_loop fuel s (Some p) (ROOT_INDEX + length s / 2)
       (length s + ROOT_INDEX) i).
Proof.
  revert s i. induction fuel as [|fuel IH]; intros s i Hs Hlen Hi Hfuel; [lia|].
  simpl. destruct (Z.ltb_spec i (ROOT_INDEX + length s / 2)) as [Hlt|Hge]; [|eauto].
  destruct (bubbleDown_body_spec s p i Hs Hlen Hi Hlt) as (c & Hc & Hcn & _ & ->).
  destruct (p <=? pri s c); [eauto|].
  apply (IH (write s i (Some (key s c)) (Some (pri s c))) c).
  - now apply shape_write.
  - done.
  - lia.
  - simpl. unfold ROOT_INDEX in *. lia.
Qed.

Lemma down_inv_init s0 start :
  shape s0 -> 1 <= start <= _capacity s0 ->
  heap_from s0 (start + 1) (length s0) ->
  down_inv s0 start s0 start.
Proof.
  intros Hs Hstart Hheap. split.
  - done.
  - apply same_frame_refl.
  - lia.
  - now right.
  - now rewrite write_same by (done || lia).
  - intros j _. now rewrite write_same by (done || lia).
  - intros j Hj Hn Hne. destruct (Z.eqb_spec j start) as [->|_]; [zlia|].
    apply Hheap; lia.
  - intros c Hc _ Hlo. zlia.
Qed.

Lemma down_inv_step s0 start s i s' i' :
  shape s0 -> 0 <= length s0 <= _capacity s0 -> 1 <= start <= _capacity s0 ->
  down_inv s0 start s i ->
  i < ROOT_INDEX + length s0 / 2 ->
  bubbleDown_body s (Some (pri s0 start)) (length s0 + ROOT_INDEX) i
  = Continue s' i' ->
  down_inv s0 start s' i'.
Proof.
  intros Hs0 Hlen Hstart [Hs Hfr Hlo Hhi Hperm Hout Hedges Hgrand] Hhalf Hbody.
  destruct Hfr as (Hcap & Hlen' & Hflag & Hek & Hep).
  pose proof (shape_capacity s Hs) as Hcapb.
  assert (Hlens : 0 <= length s <= _capacity s) by lia.
  rewrite <- Hlen' in Hbody, Hhalf.
  destruct (bubbleDown_body_spec s (pri s0 start) i Hs Hlens ltac:(lia) Hhalf)
    as (c & Hc & Hcn & Hmin & Hbody').
  rewrite Hbody' in Hbody. clear Hbody'.
  destruct (Z.leb_spec (pri s0 start) (pri s c)) as [|Hlt]; [discriminate|].
  injection Hbody as <- <-.
  assert (Hci : i < c) by lia.
  assert (Hk0 : coerce (elt (_keys s)) (key s0 start) = key s0 start)
    by (rewrite Hek; apply key_fixed; done || lia).
  assert (Hp0 : coerce (elt (_priorities s)) (pri s0 start) = pri s0 start)
    by (rewrite Hep; apply pri_fixed; done || lia).
  assert (Hpc : coerce (elt (_priorities s)) (pri s c) = pri s c)
    by (apply pri_fixed; [done | lia]).
  assert (Hfill : forall x,
             pri (write s i (Some (key s c)) (Some (pri s c))) x
             = if x =? i then pri s c else pri s x).
  { intros x. apply pri_fill; [done | lia | done]. }
  split.
  - now apply shape_write.
  - apply same_frame_write. repeat split; done.
  - lia.
  - left. lia.
  - rewrite <- Hperm. apply hole_moves; (done || lia).
  - intros j Hj. rewrite <- (Hout j Hj).
    rewrite !entries_write by lia.
    rewrite !list_lookup_insert_ne by lia. done.
  - intros j Hj Hn Hne. rewrite !Hfill.
    destruct (Z.eqb_spec (j / 2) i) as [Hpar|Hpar].
    + (* an edge below the old hole *)
      destruct (Z.eqb_spec j c) as [->|Hjc]; [lia|].
      destruct (Z.eqb_spec j i) as [->|_]; [zlia|].
      apply Hmin; [done | lia].
    + destruct (Z.eqb_spec j c) as [->|Hjc]; [zlia|].
      destruct (Z.eqb_spec j i) as [->|Hji].
      * apply Hgrand; [zlia | lia | done].
      * specialize (Hedges j Hj Hn Hpar).
        destruct (Z.eqb_spec j i); [done | exact Hedges].
  - intros d Hd Hdn Hlo'. rewrite !Hfill.
    assert (c / 2 = i) as -> by zlia. rewrite Z.eqb_refl.
    destruct (Z.eqb_spec d i) as [->|Hdi]; [zlia|].
    specialize (Hedges d ltac:(lia) Hdn ltac:(lia)).
    rewrite Hd in Hedges.
    destruct (Z.eqb_spec d i); [done | exact Hedges].
Qed.

Lemma bubbleDown_spec s start :
  shape s -> 0 <= length s <= _capacity s -> 1 <= start <= _capacity s ->
  heap_from s (start + 1) (length s) ->
  exists s',
    bubbleDown s start = Some s' /\ shape s' /\ same_frame s s' /\
    heap_from s' start (length s) /\
    entries s' ≡ₚ entries s /\
    (forall j : nat,
        (j < Z.to_nat start \/ Z.to_nat (length s) < j)%nat ->
        entries s' !! j = entries s !! j).
Proof.
  intros Hs Hlen Hstart Hheap.
  pose proof (shape_capacity s Hs) as Hcap.
  unfold bubbleDown.
  rewrite (get_key s start), (get_pri s start) by (done || lia).
  rewrite ushr_1 by lia.
  destruct (bubbleDown_loop_terminates
              (S (Z.to_nat (ROOT_INDEX + length s / 2 - start)))
              s (pri s start) start Hs Hlen ltac:(lia) ltac:(lia))
    as [[s1 i1] Hrun].
  rewrite Hrun.
  destruct (bubbleDown_loop_rule (down_inv s start) _ _ _
              (fun s2 i2 s3 i3 HI Hlt Hb =>
                 down_inv_step s start s2 i2 s3 i3 Hs Hlen Hstart HI Hlt Hb)
              _ _ _ _ _ Hrun (down_inv_init s start Hs Hstart Hheap))
    as [[Hs1 Hfr Hlo Hhi Hperm Hout Hedges Hgrand] Hexit].
  pose proof Hfr as (Hcap1 & Hlen1 & Hflag1 & Hek & Hep).
  assert (Hi1 : 0 <= i1 <= _capacity s1) by lia.
  assert (Hp0 : coerce (elt (_priorities s1)) (pri s start) = pri s start)
    by (rewrite Hep; apply pri_fixed; done || lia).
  eexists. split; [reflexivity|]. split; [now apply shape_write|].
  split; [now apply same_frame_write|]. split; [|split; [done | done]].
  intros j Hj Hn. rewrite !(pri_fill s1 i1) by done.
  destruct (Z.eqb_spec (j / 2) i1) as [Hpar|Hpar].
  - destruct (Z.eqb_spec j i1) as [->|_]; [zlia|].
    assert (Hlt : i1 < ROOT_INDEX + length s / 2) by (unfold ROOT_INDEX; zlia).
    specialize (Hexit Hlt). rewrite <- Hlen1 in Hexit, Hlt.
    destruct (bubbleDown_body_spec s1 (pri s start) i1 Hs1 ltac:(lia)
                ltac:(lia) Hlt) as (c & Hc & Hcn & Hmin & Hbody).
    rewrite Hbody in Hexit.
    destruct (Z.leb_spec (pri s start) (pri s1 c)) as [Hle|]; [|discriminate].
    specialize (Hmin j Hpar ltac:(lia)). lia.
  - apply Hedges; done.
Qed.

(** ** bubbleUp *)

Lemma bubbleUp_loop_rule (I : t -> Z -> Prop) priority :
  (forall s i s' i',
      I s i -> ROOT_INDEX < i -> bubbleUp_body s priority i = Continue s' i' ->
      I s' i') ->
  forall fuel s i s' i',
    bubbleUp_loop fuel s priority i = Some (s', i') -> I s i ->
    I s' i' /\ (ROOT_INDEX < i' -> bubbleUp_body s' priority i' = Break).
Proof.
  intros Hstep fuel. induction fuel as [|fuel IH]; intros s i s' i' Hrun HI.
  - discriminate.
  - simpl in Hrun. destruct (Z.ltb_spec ROOT_INDEX i) as [Hlt|Hge].
    + destruct (bubbleUp_body s priority i) as [|s1 i1] eqn:Hbody.
      * injection Hrun as <- <-. split; [done | intros _; exact Hbody].
      * eapply IH; [exact Hrun | eapply Hstep; eassumption].
    + injection Hrun as <- <-. split; [done | lia].
Qed.

Lemma bubbleUp_body_spec s p i :
  shape s -> 2 <= i <= _capacity s ->
  bubbleUp_body s (Some p) i =
    if pri s (i / 2) <=? p then Break
    else Continue (write s i (Some (key s (i / 2))) (Some (pri s (i / 2)))) (i / 2).
Proof.
  intros Hs Hi. pose proof (shape_capacity s Hs) as Hcap.
  unfold bubbleUp_body. rewrite ushr_1 by lia.
  rewrite (get_pri s (i / 2)), (get_key s (i / 2)) by (done || zlia).
  done.
Qed.

Lemma bubbleUp_loop_terminates fuel s p i :
  shape s -> 0 <= i <= _capacity s -> (Z.to_nat i < fuel)%nat ->
  is_Some (bubbleUp_loop fuel s (Some p) i).
Proof.
  revert s i. induction fuel as [|fuel IH]; intros s i Hs Hi Hfuel; [lia|].
  simpl. destruct (Z.ltb_spec ROOT_INDEX i) as [Hlt|Hge]; [|eauto].
  unfold ROOT_INDEX in Hlt.
  rewrite bubbleUp_body_spec by (done || lia).
  destruct (pri s (i / 2) <=? p); [eauto|].
  apply IH; [now apply shape_write | simpl; zlia | zlia].
Qed.

Lemma up_inv_init s0 :
  shape s0 -> 1 <= length s0 <= _capacity s0 ->
  heap_from s0 ROOT_INDEX (length s0 - 1) ->
  up_inv s0 s0 (length s0).
Proof.
  intros Hs Hlen Hheap. split.
  - done.
  - apply same_frame_refl.
  - lia.
  - now rewrite write_same by (done || lia).
  - intros j _. now rewrite write_same by (done || lia).
  - intros j Hj Hne. destruct (Z.eqb_spec (j / 2) (length s0)); [zlia|].
    apply Hheap; unfold ROOT_INDEX; zlia.
  - intros c Hc Hcn _. zlia.
Qed.

Lemma up_inv_step s0 s i s' i' :
  shape s0 -> 1 <= length s0 <= _capacity s0 ->
  up_inv s0 s i -> ROOT_INDEX < i ->
  bubbleUp_body s (Some (pri s0 (length s0))) i = Continue s' i' ->
  up_inv s0 s' i'.
Proof.
  intros Hs0 Hlen [Hs Hfr Hrange Hperm Hout Hedges Hgrand] Hroot Hbody.
  unfold ROOT_INDEX in Hroot.
  destruct Hfr as (Hcap & Hlen' & Hflag & Hek & Hep).
  rewrite bubbleUp_body_spec in Hbody by (done || lia).
  destruct (Z.leb_spec (pri s (i / 2)) (pri s0 (length s0))) as [|Hlt];
    [discriminate|].
  injection Hbody as <- <-.
  assert (Hpar : 1 <= i / 2 < i) by zlia.
  assert (Hk0 : coerce (elt (_keys s)) (key s0 (length s0)) = key s0 (length s0))
    by (rewrite Hek; apply key_fixed; done || lia).
  assert (Hp0 : coerce (elt (_priorities s)) (pri s0 (length s0))
                = pri s0 (length s0))
    by (rewrite Hep; apply pri_fixed; done || lia).
  assert (Hpp : coerce (elt (_priorities s)) (pri s (i / 2)) = pri s (i / 2))
    by (apply pri_fixed; [done | lia]).
  assert (Hfill : forall x,
             pri (write s i (Some (key s (i / 2))) (Some (pri s (i / 2)))) x
             = if x =? i then pri s (i / 2) else pri s x).
  { intros x. apply pri_fill; [done | lia | done]. }
  split.
  - now apply shape_write.
  - apply same_frame_write. repeat split; done.
  - lia.
  - rewrite <- Hperm. apply hole_moves; (done || lia).
  - intros j Hj. rewrite <- (Hout j Hj).
    rewrite !entries_write by lia.
    rewrite !list_lookup_insert_ne by lia. done.
  - intros j Hj Hne. rewrite !Hfill.
    destruct (Z.eqb_spec j i) as [->|Hji].
    + rewrite Z.eqb_refl. lia.
    + pose proof (Hedges j Hj Hji) as He.
      destruct (Z.eqb_spec (j / 2) (i / 2)) as [Hsib|Hsib].
      * rewrite Hsib in He. destruct (Z.eqb_spec (i / 2) i); lia.
      * destruct (Z.eqb_spec (j / 2) i) as [Hch|Hch].
        -- apply Hgrand; [done | lia | lia].
        -- exact He.
  - intros c Hc Hcn Hlo. rewrite !Hfill.
    destruct (Z.eqb_spec (i / 2 / 2) i) as [|_]; [zlia|].
    pose proof (Hedges (i / 2) ltac:(lia) ltac:(lia)) as Hp.
    destruct (Z.eqb_spec (i / 2 / 2) i); [zlia|].
    destruct (Z.eqb_spec c i) as [->|Hci]; [done|].
    pose proof (Hedges c ltac:(zlia) Hci) as Hc'.
    rewrite Hc in Hc'. destruct (Z.eqb_spec (i / 2) i); lia.
Qed.

Lemma bubbleUp_spec s :
  shape s -> 1 <= length s <= _capacity s ->
  heap_from s ROOT_INDEX (length s - 1) ->
  exists s',
    bubbleUp s (length s) = Some s' /\ shape s' /\ same_frame s s' /\
    heap_from s' ROOT_INDEX (length s) /\
    entries s' ≡ₚ entries s /\
    (forall j : nat,
        (j < 1 \/ Z.to_nat (length s) < j)%nat ->
        entries s' !! j = entries s !! j).
Proof.
  intros Hs Hlen Hheap. unfold bubbleUp.
  rewrite (get_key s (length s)), (get_pri s (length s)) by (done || lia).
  destruct (bubbleUp_loop_terminates (S (Z.to_nat (length s))) s
              (pri s (length s)) (length s) Hs ltac:(lia) ltac:(lia))
    as [[s1 i1] Hrun].
  rewrite Hrun.
  destruct (bubbleUp_loop_rule (up_inv s) _
              (fun s2 i2 s3 i3 HI Hlt Hb =>
                 up_inv_step s s2 i2 s3 i3 Hs Hlen HI Hlt Hb)
              _ _ _ _ _ Hrun (up_inv_init s Hs Hlen Hheap))
    as [[Hs1 Hfr Hrange Hperm Hout Hedges Hgrand] Hexit].
  pose proof Hfr as (Hcap1 & Hlen1 & Hflag1 & Hek & Hep).
  assert (Hp0 : coerce (elt (_priorities s1)) (pri s (length s)) = pri s (length s))
    by (rewrite Hep; apply pri_fixed; done || lia).
  eexists. split; [reflexivity|]. split; [now apply shape_write|].
  split; [now apply same_frame_write|]. split; [|split; [done | done]].
  intros j Hj Hn. unfold ROOT_INDEX in *.
  rewrite !(pri_fill s1 i1) by (done || lia).
  destruct (Z.eqb_spec j i1) as [->|Hji].
  - destruct (Z.eqb_spec (i1 / 2) i1); [zlia|].
    assert (Hlt : 1 < i1) by zlia. specialize (Hexit Hlt).
    rewrite bubbleUp_body_spec in Hexit by (done || lia).
    destruct (Z.leb_spec (pri s1 (i1 / 2)) (pri s (length s))); [lia|discriminate].
  - apply Hedges; [zlia | done].
Qed.

(** ** Slices of the entry list *)

Lemma slice_Permutation {A : Type} (l l' : list A) (from count : Z) :
  l' ≡ₚ l ->
  (forall j : nat,
      (j < Z.to_nat from \/ Z.to_nat from + Z.to_nat count <= j)%nat ->
      l' !! j = l !! j) ->
  slice l' from count ≡ₚ slice l from count.
Proof.
  intros Hperm Hout. unfold slice.
  set (a := Z.to_nat from) in *. set (n := Z.to_nat count) in *.
  assert (Hpre : take a l' = take a l).
  { apply list_eq. intros j. rewrite !lookup_take.
    destruct (decide (j < a)%nat); [apply Hout; lia | done]. }
  assert (Hsuf : drop (a + n) l' = drop (a + n) l).
  { apply list_eq. intros j. rewrite !lookup_drop. apply Hout. lia. }
  rewrite <- (take_drop a l'), <- (take_drop a l) in Hperm.
  rewrite Hpre in Hperm. apply Permutation_app_inv_l in Hperm.
  rewrite <- (take_drop n (drop a l')), <- (take_drop n (drop a l)) in Hperm.
  rewrite !drop_drop, Hsuf in Hperm.
  now apply Permutation_app_inv_r in Hperm.
Qed.

Lemma slice_empty {A : Type} (l : list A) (from count : Z) :
  count <= 0 -> slice l from count = [].
Proof. intros H. unfold slice. now replace (Z.to_nat count) with O by lia. Qed.

Lemma slice_cons {A : Type} (l : list A) (from count : Z) x :
  0 <= from -> 0 < count -> l !! Z.to_nat from = Some x ->
  slice l from count = x :: slice l (from + 1) (count - 1).
Proof.
  intros Hf Hc Hx. unfold slice.
  rewrite (drop_S _ _ _ Hx).
  replace (Z.to_nat count) with (S (Z.to_nat (count - 1))) by lia.
  replace (Z.to_nat (from + 1)) with (S (Z.to_nat from)) by lia. done.
Qed.

Lemma slice_snoc {A : Type} (l : list A) (from count : Z) x :
  0 <= from -> 0 <= count -> l !! Z.to_nat (from + count) = Some x ->
  slice l from (count + 1) = slice l from count ++ [x].
Proof.
  intros Hf Hc Hx. unfold slice.
  replace (Z.to_nat (count + 1)) with (S (Z.to_nat count)) by lia.
  apply take_S_r. rewrite lookup_drop.
  now replace (Z.to_nat from + Z.to_nat count)%nat with (Z.to_nat (from + count)) by lia.
Qed.

Lemma slice_insert_before {A : Type} (l : list A) (from count : Z) (i : nat) x :
  (i < Z.to_nat from)%nat -> slice (<[i := x]> l) from count = slice l from count.
Proof. intros H. unfold slice. now rewrite drop_insert_lt by lia. Qed.

Lemma slice_insert_after {A : Type} (l : list A) (from count : Z) (i : nat) x :
  (Z.to_nat from + Z.to_nat count <= i)%nat ->
  slice (<[i := x]> l) from count = slice l from count.
Proof.
  intros H. unfold slice. rewrite drop_insert_ge by lia.
  now rewrite take_insert_ge by lia.
Qed.

Lemma slice_lookup {A : Type} (l : list A) (from count : Z) (j : nat) x :
  0 <= from -> slice l from count !! j = Some x ->
  exists i, from <= i < from + count /\ l !! Z.to_nat i = Some x.
Proof.
  intros Hf. unfold slice. rewrite lookup_take_Some, lookup_drop.
  intros [Hx Hj]. exists (from + Z.of_nat j). split; [lia|].
  now replace (Z.to_nat (from + Z.of_nat j)) with (Z.to_nat from + j)%nat by lia.
Qed.

(** ** The root of a heap is its minimum *)

Lemma root_min s n i :
  heap_from s ROOT_INDEX n -> 1 <= i <= n -> pri s ROOT_INDEX <= pri s i.
Proof.
  intros Hheap. unfold ROOT_INDEX in *.
  assert (H : forall m : nat, forall i, 1 <= i <= n -> i <= Z.of_nat m ->
                                   pri s 1 <= pri s i).
  { clear i. intros m. induction m as [|m IH]; intros i Hi Hm; [lia|].
    destruct (decide (i = 1)) as [->|Hne]; [lia|].
    etrans; [apply (IH (i / 2)); zlia | apply Hheap; zlia]. }
  intros Hi. apply (H (Z.to_nat i)); lia.
Qed.

(** ** Fields other than the stores *)

Lemma shape_with_length s n : shape s -> shape (with_length s n).
Proof. intros [H1 H2 H3 H4 H5]. split; done. Qed.

Lemma shape_with_hasPoppedElement s b :
  shape s -> shape (with_hasPoppedElement s b).
Proof. intros [H1 H2 H3 H4 H5]. split; done. Qed.

(** ** removePoppedElement *)

Lemma removePoppedElement_spec s :
  wf s ->
  exists s',
    removePoppedElement s = Some s' /\ wf s' /\
    _hasPoppedElement s' = false /\ same_frame s (with_hasPoppedElement s' (_hasPoppedElement s)) /\
    live s' ≡ₚ live s.
Proof.
  intros Hwf. pose proof Hwf as [Hs Hlen Hpend Hheap].
  unfold removePoppedElement.
  destruct (_hasPoppedElement s) eqn:Hflag.
  2:{ exists s. split; [done|]. split; [exact Hwf|]. split; [done|].
      split; [|done]. repeat split; simpl; done. }
  specialize (Hpend eq_refl). unfold ROOT_INDEX in *.
  pose proof (shape_capacity s Hs) as Hcap.
  rewrite (get_key s (length s + 1)), (get_pri s (length s + 1)) by (done || lia).
  set (s1 := write s 1 (Some (key s (length s + 1))) (Some (pri s (length s + 1)))).
  assert (Hs1 : shape s1) by now apply shape_write.
  assert (Hheap1 : heap_from s1 (1 + 1) (length s1)).
  { intros j Hj Hn. unfold s1. rewrite !pri_write_ne by zlia.
    apply Hheap. - lia. - unfold occupied. rewrite Hflag. simpl in Hn. lia. }
  destruct (bubbleDown_spec s1 1 Hs1 ltac:(simpl; lia) ltac:(simpl; lia) Hheap1)
    as (s2 & -> & Hs2 & Hfr & Hheap2 & Hperm & Hout).
  pose proof Hfr as (Hcap2 & Hlen2 & Hflag2 & Hek & Hep). simpl in *.
  exists (with_hasPoppedElement s2 false).
  split; [done|]. split; [|split; [done|split]].
  - split; simpl.
    + now apply shape_with_hasPoppedElement.
    + lia.
    + done.
    + unfold occupied. simpl. rewrite Hlen2. exact Hheap2.
  - repeat split; simpl; rewrite ?elt_set in *; congruence.
  - unfold live. simpl. rewrite Hflag, Hlen2. unfold ROOT_INDEX. simpl.
    etrans.
    { apply slice_Permutation; [exact Hperm|]. intros j Hj. apply Hout. lia. }
    unfold s1. rewrite entries_write by lia. simpl.
    rewrite key_fixed, pri_fixed by (done || lia).
    destruct (decide (length s = 0)) as [Hz|Hnz].
    { rewrite !slice_empty by lia. done. }
    set (e := (key s (length s + 1), pri s (length s + 1))).
    set (E := entries s).
    assert (Hl : slice (<[Z.to_nat 1 := e]> E) 1 (length s)
                 = e :: slice E 2 (length s - 1)).
    { rewrite (slice_cons _ 1 (length s) e); [|lia|lia|].
      - now rewrite slice_insert_before by lia.
      - apply list_lookup_insert_eq. unfold E. rewrite length_entries by done. lia. }
    assert (Hr : slice E 2 (length s) = slice E 2 (length s - 1) ++ [e]).
    { replace (length s) with (length s - 1 + 1) at 1 by lia.
      apply slice_snoc; [lia | lia |].
      replace (2 + (length s - 1)) with (length s + 1) by lia.
      apply entries_lookup; [done | lia]. }
    change (1 + 1) with 2. rewrite Hl, Hr.
    apply Permutation_cons_append.
Qed.

(** ** push *)

Lemma push_spec s k p :
  wf s -> length s <> _capacity s ->
  exists s',
    push s k p = Return tt s' /\ wf s' /\
    _hasPoppedElement s' = false /\ length s' = length s + 1 /\
    _capacity s' = _capacity s /\
    elt (_keys s') = elt (_keys s) /\
    elt (_priorities s') = elt (_priorities s) /\
    live s' ≡ₚ (coerce (elt (_keys s)) k, coerce (elt (_priorities s)) p) :: live s.
Proof.
  intros [Hs Hlen Hpend Hheap] Hfull. unfold push.
  destruct (Z.eqb_spec (length s) (_capacity s)) as [|_]; [done|].
  pose proof (shape_capacity s Hs) as Hcap. unfold ROOT_INDEX in *.
  set (e := (coerce (elt (_keys s)) k, coerce (elt (_priorities s)) p)).
  set (E := entries s).
  destruct (_hasPoppedElement s) eqn:Hflag.
  - (* the root slot is free: overwrite it and bubble down *)
    cbv zeta. change (length (write s 1 (Some k) (Some p))) with (length s).
    set (s1 := with_length (write s 1 (Some k) (Some p)) (length s + 1)).
    assert (Hs1 : shape s1) by now apply shape_with_length, shape_write.
    assert (Hheap1 : heap_from s1 (1 + 1) (length s1)).
    { intros j Hj Hn. unfold s1, pri. simpl.
      rewrite !get_set_ne by zlia. apply Hheap; [lia|].
      unfold occupied. rewrite Hflag. exact Hn. }
    destruct (bubbleDown_spec s1 1 Hs1 ltac:(simpl; lia) ltac:(simpl; lia) Hheap1)
      as (s2 & -> & Hs2 & Hfr & Hheap2 & Hperm & Hout).
    pose proof Hfr as (Hcap2 & Hlen2 & Hflag2 & Hek & Hep). simpl in *.
    rewrite ?elt_set in Hek, Hep.
    exists (with_hasPoppedElement s2 false).
    split; [done|]. split; [|repeat (split; [done|])].
    + split; simpl.
      * now apply shape_with_hasPoppedElement.
      * lia.
      * done.
      * unfold occupied. simpl. rewrite Hlen2. exact Hheap2.
    + unfold live. simpl. rewrite Hflag, Hlen2. unfold ROOT_INDEX.
      etrans.
      { apply slice_Permutation; [exact Hperm|]. intros j Hj. apply Hout. lia. }
      change (entries s1) with (entries (write s 1 (Some k) (Some p))).
      rewrite entries_write by lia. simpl. fold e E.
      rewrite (slice_cons _ 1 (length s + 1) e); [|lia|lia|].
      2:{ apply list_lookup_insert_eq. unfold E. rewrite length_entries by done. lia. }
      rewrite slice_insert_before by lia.
      now replace (length s + 1 - 1) with (length s) by lia.
  - (* append after the last element and bubble up *)
    cbv zeta.
    change (length (write s (length s + 1) (Some k) (Some p))) with (length s).
    set (s1 := with_length (write s (length s + 1) (Some k) (Some p)) (length s + 1)).
    assert (Hs1 : shape s1) by now apply shape_with_length, shape_write.
    assert (Hheap1 : heap_from s1 ROOT_INDEX (length s1 - 1)).
    { intros j Hj Hn. unfold s1, pri, ROOT_INDEX in *. simpl in *.
      rewrite !get_set_ne by zlia. apply Hheap; [done|].
      unfold occupied. rewrite Hflag. lia. }
    destruct (bubbleUp_spec s1 Hs1 ltac:(simpl; lia) Hheap1)
      as (s2 & Hrun & Hs2 & Hfr & Hheap2 & Hperm & Hout).
    pose proof Hfr as (Hcap2 & Hlen2 & Hflag2 & Hek & Hep). simpl in *.
    rewrite ?elt_set in Hek, Hep. rewrite Hrun.
    exists s2. split; [done|]. split; [|repeat (split; [congruence|])].
    + split.
      * done.
      * lia.
      * congruence.
      * unfold occupied. rewrite Hflag2, Hflag, Hlen2. exact Hheap2.
    + unfold live. rewrite Hflag2, Hflag, Hlen2. unfold ROOT_INDEX.
      etrans.
      { apply slice_Permutation; [exact Hperm|]. intros j Hj. apply Hout. lia. }
      change (entries s1)
        with (entries (write s (length s + 1) (Some k) (Some p))).
      rewrite entries_write by lia. simpl. fold e E.
      rewrite (slice_snoc _ 1 (length s) e); [|lia|lia|].
      2:{ replace (1 + length s) with (length s + 1) by lia.
          apply list_lookup_insert_eq. unfold E. rewrite length_entries by done. lia. }
      rewrite slice_insert_after by lia.
      symmetry. apply Permutation_cons_append.
Qed.

(** ** pop and the two peeks *)

Lemma live_bounded_below s :
  wf s -> _hasPoppedElement s = false ->
  Forall (fun e => pri s ROOT_INDEX <= e.2) (live s).
Proof.
  intros [Hs Hlen Hpend Hheap] Hflag. unfold live, occupied in *.
  rewrite Hflag in *. apply Forall_lookup. intros j e He.
  apply slice_lookup in He as (i & Hi & He); [|done]. unfold ROOT_INDEX in Hi.
  rewrite entries_lookup in He by (done || lia). injection He as <-. simpl.
  apply (root_min s (length s)); [done | lia].
Qed.

Lemma pop_spec s :
  wf s -> length s <> 0 ->
  exists s1,
    removePoppedElement s = Some s1 /\
    wf s1 /\ _hasPoppedElement s1 = false /\
    same_frame s (with_hasPoppedElement s1 (_hasPoppedElement s)) /\
    peekPriority s = Return (Some (pri s1 ROOT_INDEX)) s1 /\
    peek s = Return (Some (key s1 ROOT_INDEX)) s1 /\
    pop s = Return (Some (key s1 ROOT_INDEX))
              (with_hasPoppedElement (with_length s1 (length s - 1)) true) /\
    wf (with_hasPoppedElement (with_length s1 (length s - 1)) true) /\
    live s ≡ₚ (key s1 ROOT_INDEX, pri s1 ROOT_INDEX)
                :: live (with_hasPoppedElement (with_length s1 (length s - 1)) true) /\
    Forall (fun e => pri s1 ROOT_INDEX <= e.2) (live s).
Proof.
  intros Hwf Hne. pose proof (wf_length s Hwf) as Hlen.
  destruct (removePoppedElement_spec s Hwf)
    as (s1 & Hrm & Hwf1 & Hflag1 & Hfr & Hlive).
  destruct Hfr as (Hcap1 & Hlen1 & _ & Hek & Hep). simpl in *.
  pose proof Hwf1 as [Hs1 Hlen1' Hpend1 Hheap1].
  pose proof (shape_capacity s1 Hs1) as Hcap.
  exists s1. unfold peekPriority, peek, pop. rewrite Hrm.
  destruct (Z.eqb_spec (length s) 0) as [|_]; [done|]. unfold ROOT_INDEX in *.
  rewrite (get_pri s1 1), (get_key s1 1) by (done || lia). simpl.
  rewrite (get_key s1 1) by (done || lia). rewrite Hlen1.
  repeat (split; [done|]). split; [|split].
  - split; simpl.
    + now apply shape_with_hasPoppedElement, shape_with_length.
    + lia.
    + lia.
    + unfold occupied in *. simpl. rewrite Hflag1 in Hheap1.
      now replace (length s - 1 + 1) with (length s1) by lia.
  - rewrite <- Hlive. unfold live. simpl. rewrite Hflag1, Hlen1.
    unfold ROOT_INDEX. change (1 + 1) with 2.
    change (entries (with_hasPoppedElement (with_length s1 (length s - 1)) true))
      with (entries s1).
    rewrite (slice_cons (entries s1) 1 (length s) (key s1 1, pri s1 1));
      [done | lia | lia |].
    apply entries_lookup; [done | lia].
  - eapply Permutation_Forall; [exact Hlive|].
    now apply live_bounded_below.
Qed.

(** ** What no method changes: the capacity and the extent of the stores

    These facts need no assumption on the state. *)

Lemma same_extent_refl s : same_extent s s.
Proof. split; [apply same_frame_refl | done]. Qed.

Lemma same_extent_write s s' i k p :
  same_extent s s' -> same_extent s (write s' i k p).
Proof.
  intros (Hfr & Hk & Hp). split; [now apply same_frame_write|].
  simpl. now rewrite !length_set.
Qed.

Lemma bubbleDown_body_write s p li i s' i' :
  bubbleDown_body s p li i = Continue s' i' -> exists k v, s' = write s i k v.
Proof.
  unfold bubbleDown_body. intros H.
  repeat match type of H with
         | context [if ?b then _ else _] => destruct b
         end; try discriminate; injection H as <- <-; eauto.
Qed.

Lemma bubbleUp_body_write s p i s' i' :
  bubbleUp_body s p i = Continue s' i' -> exists k v, s' = write s i k v.
Proof.
  unfold bubbleUp_body. intros H.
  destruct (JS.le _ _); [discriminate|]. injection H as <- <-. eauto.
Qed.

Lemma bubbleDown_extent s i s' : bubbleDown s i = Some s' -> same_extent s s'.
Proof.
  unfold bubbleDown. intros H.
  destruct (bubbleDown_loop _ _ _ _ _ _) as [[s1 i1]|] eqn:Hrun; [|discriminate].
  injection H as <-. apply same_extent_write.
  refine (proj1 (bubbleDown_loop_rule (fun s1 _ => same_extent s s1) _ _ _ _
                   _ _ _ _ _ Hrun (same_extent_refl s))).
  intros s2 i2 s3 i3 HI _ Hbody.
  apply bubbleDown_body_write in Hbody as (k & v & ->).
  now apply same_extent_write.
Qed.

Lemma bubbleUp_extent s i s' : bubbleUp s i = Some s' -> same_extent s s'.
Proof.
  unfold bubbleUp. intros H.
  destruct (bubbleUp_loop _ _ _ _) as [[s1 i1]|] eqn:Hrun; [|discriminate].
  injection H as <-. apply same_extent_write.
  refine (proj1 (bubbleUp_loop_rule (fun s1 _ => same_extent s s1) _ _
                   _ _ _ _ _ Hrun (same_extent_refl s))).
  intros s2 i2 s3 i3 HI _ Hbody.
  apply bubbleUp_body_write in Hbody as (k & v & ->).
  now apply same_extent_write.
Qed.

Lemma removePoppedElement_extent s s' :
  removePoppedElement s = Some s' ->
  _hasPoppedElement s' = false /\
  same_extent s (with_hasPoppedElement s' (_hasPoppedElement s)).
Proof.
  unfold removePoppedElement. intros H.
  destruct (_hasPoppedElement s) eqn:Hflag.
  - destruct (bubbleDown _ _) as [s2|] eqn:Hdown; [|discriminate].
    injection H as <-. split; [done|].
    apply bubbleDown_extent in Hdown as ((H1 & H2 & H3 & H4 & H5) & H6 & H7).
    simpl in *. rewrite ?elt_set, ?length_set, ?length_insert in *.
    repeat split; simpl; congruence.
  - injection H as <-. split; [done|].
    repeat split; simpl; congruence.
Qed.

Lemma call_capacity m s s' : call m s s' -> _capacity s' = _capacity s.
Proof.
  destruct m as [k p| | | | |]; simpl.
  - unfold push. destruct (length s =? _capacity s); simpl; [now intros <-|].
    destruct (_hasPoppedElement s).
    + destruct (bubbleDown _ _) as [s2|] eqn:Hdown; simpl; [|done]. intros <-.
      now apply bubbleDown_extent in Hdown as ((H1 & _) & _).
    + destruct (bubbleUp _ _) as [s2|] eqn:Hup; simpl; [|done]. intros <-.
      now apply bubbleUp_extent in Hup as ((H1 & _) & _).
  - unfold pop. destruct (length s =? 0); simpl; [now intros <-|].
    destruct (removePoppedElement s) as [s1|] eqn:Hrm; simpl; [|done]. intros <-.
    now apply removePoppedElement_extent in Hrm as (_ & (H1 & _) & _).
  - unfold peek.
    destruct (removePoppedElement s) as [s1|] eqn:Hrm; simpl; [|done]. intros <-.
    now apply removePoppedElement_extent in Hrm as (_ & (H1 & _) & _).
  - unfold peekPriority.
    destruct (removePoppedElement s) as [s1|] eqn:Hrm; simpl; [|done]. intros <-.
    now apply removePoppedElement_extent in Hrm as (_ & (H1 & _) & _).
  - now intros <-.
  - unfold dumpRawPriorities.
    destruct (removePoppedElement s) as [s1|] eqn:Hrm; simpl; [|done].
    apply removePoppedElement_extent in Hrm as (_ & (H1 & _) & _).
    destruct (JS.Array _); simpl; now intros <-.
Qed.

Lemma call_bounds m s s' : bounds s -> call m s s' -> bounds s'.
Proof.
  intros Hb. pose proof Hb as [B1 B2 B3 B4 B5].
  destruct m as [k p| | | | |]; simpl.
  - unfold push. destruct (Z.eqb_spec (length s) (_capacity s)); simpl;
      [now intros <-|].
    destruct (_hasPoppedElement s) eqn:Hflag.
    + destruct (bubbleDown _ _) as [s2|] eqn:Hdown; simpl; [|done]. intros <-.
      apply bubbleDown_extent in Hdown as ((H1 & H2 & H3 & _) & H4 & H5).
      simpl in *. rewrite ?length_set, ?length_insert in *.
      split; simpl; rewrite ?H1, ?H2, ?H4, ?H5; (done || lia).
    + destruct (bubbleUp _ _) as [s2|] eqn:Hup; simpl; [|done]. intros <-.
      apply bubbleUp_extent in Hup as ((H1 & H2 & H3 & _) & H4 & H5).
      simpl in *. rewrite ?length_set, ?length_insert in *.
      split; rewrite ?H1, ?H2, ?H3, ?H4, ?H5, ?Hflag; (done || lia).
  - unfold pop. destruct (Z.eqb_spec (length s) 0); simpl; [now intros <-|].
    destruct (removePoppedElement s) as [s1|] eqn:Hrm; simpl; [|done]. intros <-.
    apply removePoppedElement_extent in Hrm
        as (_ & (H1 & H2 & H3 & _) & H4 & H5). simpl in *.
    split; simpl; rewrite ?H1, ?H2, ?H4, ?H5; (done || lia).
  - unfold peek.
    destruct (removePoppedElement s) as [s1|] eqn:Hrm; simpl; [|done]. intros <-.
    apply removePoppedElement_extent in Hrm
        as (Hf & (H1 & H2 & H3 & _) & H4 & H5). simpl in *.
    split; simpl; rewrite ?H1, ?H2, ?H4, ?H5, ?Hf; done.
  - unfold peekPriority.
    destruct (removePoppedElement s) as [s1|] eqn:Hrm; simpl; [|done]. intros <-.
    apply removePoppedElement_extent in Hrm
        as (Hf & (H1 & H2 & H3 & _) & H4 & H5). simpl in *.
    split; simpl; rewrite ?H1, ?H2, ?H4, ?H5, ?Hf; done.
  - intros <-. split; simpl; (done || lia).
  - unfold dumpRawPriorities.
    destruct (removePoppedElement s) as [s1|] eqn:Hrm; simpl; [|done].
    apply removePoppedElement_extent in Hrm
        as (Hf & (H1 & H2 & H3 & _) & H4 & H5). simpl in *.
    destruct (JS.Array _); simpl; intros <-;
      split; simpl; rewrite ?H1, ?H2, ?H4, ?H5, ?Hf; done.
Qed.

(** ** Every method keeps a well-formed queue well-formed *)

Lemma wf_clear s : wf s -> wf (with_hasPoppedElement (with_length s 0) false).
Proof.
  intros [Hs Hlen Hpend Hheap]. pose proof (shape_capacity s Hs).
  split; simpl.
  - now apply shape_with_hasPoppedElement, shape_with_length.
  - lia.
  - done.
  - intros i Hi Hn. unfold occupied, ROOT_INDEX in *. simpl in *. zlia.
Qed.

Lemma call_wf m s s' : wf s -> call m s s' -> wf s'.
Proof.
  intros Hwf. destruct m as [k p| | | | |]; simpl.
  - destruct (decide (length s = _capacity s)) as [Hfull|Hfull].
    + unfold push. rewrite (proj2 (Z.eqb_eq _ _) Hfull). simpl. now intros <-.
    + destruct (push_spec s k p Hwf Hfull) as (s2 & -> & Hwf2 & _).
      simpl. now intros <-.
  - destruct (decide (length s = 0)) as [Hz|Hnz].
    + unfold pop. rewrite (proj2 (Z.eqb_eq _ _) Hz). simpl. now intros <-.
    + destruct (pop_spec s Hwf Hnz)
        as (s1 & _ & _ & _ & _ & _ & _ & -> & Hwf' & _).
      simpl. now intros <-.
  - destruct (removePoppedElement_spec s Hwf) as (s1 & Hrm & Hwf1 & _).
    unfold peek. rewrite Hrm. simpl. now intros <-.
  - destruct (removePoppedElement_spec s Hwf) as (s1 & Hrm & Hwf1 & _).
    unfold peekPriority. rewrite Hrm. simpl. now intros <-.
  - intros <-. now apply wf_clear.
  - destruct (removePoppedElement_spec s Hwf) as (s1 & Hrm & Hwf1 & _).
    unfold dumpRawPriorities. rewrite Hrm.
    destruct (JS.Array _); simpl; now intros <-.
Qed.

(** ** The constructor *)

Lemma copy_loop_split keys priorities ks ps :
  copy_loop keys priorities ks ps =
  (copy_one keys ks (List.length keys), copy_one priorities ps (List.length keys)).
Proof.
  unfold copy_loop, copy_one. generalize (seq 0 (List.length keys)).
  intros l. revert ks ps. induction l as [|i l IH]; intros ks ps; [done|].
  simpl. apply IH.
Qed.

Lemma copy_one_spec src a m :
  let a' := copy_one src a m in
  elt a' = elt a /\ List.length (data a') = List.length (data a) /\
  (stored a -> stored a') /\
  ((m < List.length (data a))%nat ->
   forall j : nat,
     data a' !! j =
     if decide (1 <= j <= m)%nat
     then Some (store (elt a) (src !! (j - 1)%nat))
     else data a !! j).
Proof.
  induction m as [|m IH]; simpl.
  - repeat split; try done. intros _ j. destruct (decide _); [lia | done].
  - unfold copy_one in *. rewrite seq_S, foldl_app.
    set (a' := foldl _ a (seq 0 m)) in *. simpl.
    destruct IH as (He & Hl & Hst & Hlook).
    rewrite elt_set, length_set. repeat split; try done.
    + intros H. now apply stored_set, Hst.
    + intros Hm j. specialize (Hlook ltac:(lia) j).
      unfold set, ROOT_INDEX. destruct (Z.leb_spec 0 (Z.of_nat m + 1)); [|lia].
      simpl. replace (Z.to_nat (Z.of_nat m + 1)) with (S m) by lia.
      destruct (decide (j = S m)) as [->|Hne].
      * rewrite list_lookup_insert_eq by lia. rewrite He.
        destruct (decide (1 <= S m <= S m)%nat); [|lia].
        now replace (S m - 1)%nat with m by lia.
      * rewrite list_lookup_insert_ne by lia. rewrite Hlook.
        destruct (decide (1 <= j <= m)%nat), (decide (1 <= j <= S m)%nat);
          (done || lia).
Qed.

Lemma heapify_loop_spec m s :
  shape s -> 0 <= length s <= _capacity s -> Z.of_nat m <= _capacity s ->
  heap_from s (Z.of_nat m + 1) (length s) ->
  exists s',
    heapify_loop m s = Some s' /\ shape s' /\ same_frame s s' /\
    heap_from s' ROOT_INDEX (length s) /\
    entries s' ≡ₚ entries s /\
    (forall j : nat,
        (j < 1 \/ Z.to_nat (length s) < j)%nat ->
        entries s' !! j = entries s !! j).
Proof.
  revert s. induction m as [|m IH]; intros s Hs Hlen Hm Hheap.
  - exists s. split; [done|]. split; [done|].
    split; [apply same_frame_refl|]. split; [exact Hheap | done].
  - simpl heapify_loop.
    destruct (bubbleDown_spec s (Z.of_nat (S m)) Hs Hlen ltac:(lia) Hheap)
      as (s1 & -> & Hs1 & Hfr & Hheap1 & Hperm & Hout).
    pose proof Hfr as (Hcap1 & Hlen1 & _).
    destruct (IH s1 Hs1 ltac:(lia) ltac:(lia)) as
      (s2 & -> & Hs2 & Hfr2 & Hheap2 & Hperm2 & Hout2).
    { rewrite Hlen1. now replace (Z.of_nat m + 1) with (Z.of_nat (S m)) by lia. }
    exists s2. rewrite Hlen1 in *.
    split; [done|]. split; [done|].
    split; [eapply same_frame_trans; eassumption|]. split; [done|].
    split; [now rewrite Hperm2|].
    intros j Hj. rewrite Hout2 by done. apply Hout. lia.
Qed.

Lemma heapify_loop_extent m s s' :
  heapify_loop m s = Some s' -> same_extent s s'.
Proof.
  revert s. induction m as [|m IH]; intros s; simpl.
  - intros [= <-]. apply same_extent_refl.
  - destruct (bubbleDown s _) as [s1|] eqn:Hdown; [|discriminate].
    intros H. apply IH in H. apply bubbleDown_extent in Hdown.
    destruct H as (F & K & P), Hdown as (F' & K' & P').
    split; [eapply same_frame_trans; eassumption | split; congruence].
Qed.

Lemma shape_alloc_copy c keys priorities K P :
  0 <= c < 2 ^ 31 ->
  shape {| _capacity := c;
           _keys := copy_one keys (alloc K (c + ROOT_INDEX)) (List.length keys);
           _priorities :=
             copy_one priorities (alloc P (c + ROOT_INDEX)) (List.length keys);
           length := Z.of_nat (List.length keys);
           _hasPoppedElement := false |}.
Proof.
  intros Hc. unfold ROOT_INDEX.
  destruct (copy_one_spec keys (alloc K (c + 1)) (List.length keys))
    as (_ & Hkl & Hks & _).
  destruct (copy_one_spec priorities (alloc P (c + 1)) (List.length keys))
    as (_ & Hpl & Hps & _).
  simpl in Hkl, Hpl. rewrite length_replicate in Hkl, Hpl.
  split; simpl; try done.
  - apply Hks. unfold stored. simpl. apply Forall_replicate, coerce_0.
  - apply Hps. unfold stored. simpl. apply Forall_replicate, coerce_0.
Qed.

(** After the copy loop the pairs sit at positions 1..n, in the order
    given. *)
Lemma copied_entries c keys priorities K P :
  List.length keys = List.length priorities ->
  Z.of_nat (List.length keys) <= c ->
  slice
    (zip (data (copy_one keys (alloc K (c + ROOT_INDEX)) (List.length keys)))
         (data (copy_one priorities (alloc P (c + ROOT_INDEX)) (List.length keys))))
    ROOT_INDEX (Z.of_nat (List.length keys))
  = zip (coerce K <$> keys) (coerce P <$> priorities).
Proof.
  intros Hn Hc. unfold ROOT_INDEX.
  destruct (copy_one_spec keys (alloc K (c + 1)) (List.length keys))
    as (_ & _ & _ & Hk).
  destruct (copy_one_spec priorities (alloc P (c + 1)) (List.length keys))
    as (_ & _ & _ & Hp).
  simpl in Hk, Hp. rewrite length_replicate in Hk, Hp.
  specialize (Hk ltac:(lia)). specialize (Hp ltac:(lia)).
  apply list_eq. intros j. unfold slice.
  rewrite lookup_take, lookup_drop, !lookup_zip_with, !list_lookup_fmap.
  replace (Z.to_nat 1 + j)%nat with (S j) by lia.
  rewrite Hk, Hp.
  destruct (decide (j < Z.to_nat (Z.of_nat (List.length keys)))%nat) as [Hj|Hj].
  - destruct (decide (1 <= S j <= List.length keys)%nat); [|lia].
    replace (S j - 1)%nat with j by lia.
    destruct (lookup_lt_is_Some_2 keys j ltac:(lia)) as [x ->].
    destruct (lookup_lt_is_Some_2 priorities j ltac:(lia)) as [y ->]. done.
  - rewrite (lookup_ge_None_2 keys j) by lia. done.
Qed.

Lemma new_spec c keys priorities K P :
  0 <= c < 2 ^ 31 ->
  List.length keys = List.length priorities ->
  Z.of_nat (List.length keys) <= c ->
  exists s,
    new c keys priorities K P = Constructed s /\ wf s /\
    _hasPoppedElement s = false /\ length s = Z.of_nat (List.length keys) /\
    _capacity s = c /\ elt (_keys s) = K /\ elt (_priorities s) = P /\
    live s ≡ₚ zip (coerce K <$> keys) (coerce P <$> priorities).
Proof.
  intros Hc Hn Hle. unfold new.
  destruct (Z.ltb_spec (c + ROOT_INDEX) 0); [unfold ROOT_INDEX in *; lia|].
  rewrite Hn, Z.eqb_refl. simpl negb. cbv iota. rewrite <- Hn.
  destruct (Z.ltb_spec c (Z.of_nat (List.length keys))); [lia|].
  rewrite copy_loop_split. rewrite ushr_1 by lia.
  set (s0 := {| _capacity := c; _keys := _; _priorities := _; length := _;
                _hasPoppedElement := false |}).
  assert (Hs0 : shape s0) by now apply shape_alloc_copy.
  destruct (heapify_loop_spec (Z.to_nat (Z.of_nat (List.length keys) / 2)) s0 Hs0)
    as (s & -> & Hs & Hfr & Hheap & Hperm & Hout).
  { simpl. lia. }
  { simpl. zlia. }
  { intros j Hj Hjn. simpl in *. zlia. }
  destruct Hfr as (Hcap & Hlen & Hflag & Hek & Hep). simpl in *.
  destruct (copy_one_spec keys (alloc K (c + ROOT_INDEX)) (List.length keys))
    as (HeK & _).
  destruct (copy_one_spec priorities (alloc P (c + ROOT_INDEX)) (List.length keys))
    as (HeP & _).
  simpl in HeK, HeP.
  exists s. split; [done|]. split; [|repeat (split; [congruence|])].
  - split.
    + done.
    + lia.
    + congruence.
    + unfold occupied. now rewrite Hflag, Hlen.
  - unfold live. rewrite Hflag, Hlen.
    etrans.
    { apply slice_Permutation; [exact Hperm|]. intros j Hj. apply Hout.
      unfold ROOT_INDEX in Hj. lia. }
    unfold entries, s0. simpl. now rewrite copied_entries.
Qed.

Lemma new_bounds c keys priorities K P s :
  new c keys priorities K P = Constructed s -> 0 <= c ->
  bounds s /\ _capacity s = c.
Proof.
  unfold new. intros H Hc.
  destruct (c + ROOT_INDEX <? 0); [discriminate|].
  destruct (negb _); [discriminate|].
  destruct (Z.ltb_spec c (Z.of_nat (List.length keys))); [discriminate|].
  rewrite copy_loop_split in H.
  destruct (heapify_loop _ _) as [s1|] eqn:Hheap; [|discriminate].
  injection H as <-.
  apply heapify_loop_extent in Hheap as ((H1 & H2 & H3 & _) & H4 & H5).
  simpl in *.
  destruct (copy_one_spec keys (alloc K (c + ROOT_INDEX)) (List.length keys))
    as (_ & Hkl & _).
  destruct (copy_one_spec priorities (alloc P (c + ROOT_INDEX)) (List.length keys))
    as (_ & Hpl & _).
  simpl in Hkl, Hpl. rewrite length_replicate in Hkl, Hpl.
  unfold ROOT_INDEX in *.
  split; [split|]; rewrite ?H1, ?H2, ?H3, ?H4, ?H5; (done || lia).
Qed.

(** ** Reachable states *)

Lemma new_constructed c keys priorities K P s :
  new c keys priorities K P = Constructed s ->
  0 <= c /\ List.length keys = List.length priorities /\
  Z.of_nat (List.length keys) <= c /\ _capacity s = c.
Proof.
  unfold new. intros H.
  destruct (c + ROOT_INDEX <? 0); [discriminate|].
  destruct (Z.eqb_spec (Z.of_nat (List.length keys))
              (Z.of_nat (List.length priorities))) as [Hn|]; [|discriminate].
  destruct (Z.ltb_spec c (Z.of_nat (List.length keys))) as [|Hle]; [discriminate|].
  simpl in H. rewrite copy_loop_split in H.
  destruct (heapify_loop _ _) as [s1|] eqn:Hheap; [|discriminate].
  injection H as <-.
  apply heapify_loop_extent in Hheap as ((H1 & _) & _). simpl in H1.
  repeat split; lia.
Qed.

Lemma reachable_bounds s : reachable s -> bounds s.
Proof.
  induction 1 as [c keys priorities K P s Hnew | m s s' Hr IH Hcall].
  - destruct (new_constructed _ _ _ _ _ _ Hnew) as (Hc & _).
    now apply (new_bounds c keys priorities K P s).
  - now apply (call_bounds m s s').
Qed.

Lemma reachable_wf s : reachable s -> _capacity s < 2 ^ 31 -> wf s.
Proof.
  induction 1 as [c keys priorities K P s Hnew | m s s' Hr IH Hcall]; intros Hc.
  - destruct (new_constructed _ _ _ _ _ _ Hnew) as (Hc0 & Hn & Hle & Hcap).
    destruct (new_spec c keys priorities K P ltac:(lia) Hn Hle)
      as (s' & Hnew' & Hwf & _).
    rewrite Hnew in Hnew'. now injection Hnew' as ->.
  - pose proof (call_capacity m s s' Hcall) as Hcap.
    apply (call_wf m s s'); [apply IH; lia | done].
Qed.

(** ** Sequences of pushes, and draining *)




(** ** What the dump returns on a queue that is not empty *)





(** ** Heap order as the code reads it *)


(** ** Some states of small queues *)

Lemma reachable_empty_queue c : 0 <= c -> reachable (empty_queue c).
Proof.
  intros Hc. apply (reachable_new c [] [] Uint32Array Uint32Array).
  unfold new, ROOT_INDEX. destruct (Z.ltb_spec (c + 1) 0); [lia|]. simpl.
  change (Z.of_nat 0) with 0. destruct (Z.ltb_spec c 0); [lia|]. done.
Qed.

Lemma reachable_drained_queue : reachable drained_queue.
Proof.
  apply (reachable_call Pop full_queue); [|reflexivity].
  apply (reachable_call (Push 1 10) (empty_queue 1)); [|reflexivity].
  apply reachable_empty_queue. lia.
Qed.

Lemma reachable_single_queue : reachable single_queue.
Proof.
  apply (reachable_call (Push 1 3) (empty_queue 2)); [|reflexivity].
  apply reachable_empty_queue. lia.
Qed.

Lemma reachable_pair_queue : reachable pair_queue.
Proof.
  apply (reachable_call (Push 2 5) single_queue); [|reflexivity].
  exact reachable_single_queue.
Qed.

(** ** Scenarios of the test suite, replayed on a fresh queue of
    capacity 64 *)

Example dump_after_pushes :
  exists q,
    push_all (empty_queue 64) [(1, 10); (2, 30); (3, 20); (4, 40)] = Return tt q /\
    dumpRawPriorities q = Return "[10 30 20 40]" q.
Proof. eexists. split; [lazy; reflexivity | vm_compute; reflexivity]. Qed.

Example bubble_down_to_the_right :
  exists q q' q'',
    push_all (empty_queue 64) [(1, 10); (2, 30); (3, 20); (4, 40)] = Return tt q /\
    pop q = Return (Some 1) q' /\
    dumpRawPriorities q' = Return "[20 30 40]" q''.
Proof.
  do 3 eexists. split; [lazy; reflexivity|].
  split; [lazy; reflexivity | vm_compute; reflexivity].
Qed.

Example bubble_down_stops_before_a_leaf :
  exists q q' q'',
    push_all (empty_queue 64) [(1, 10); (2, 20); (3, 30); (4, 40); (5, 35)]
    = Return tt q /\
    pop q = Return (Some 1) q' /\
    dumpRawPriorities q' = Return "[20 35 30 40]" q''.
Proof.
  do 3 eexists. split; [lazy; reflexivity|].
  split; [lazy; reflexivity | vm_compute; reflexivity].
Qed.

Example bubble_up_on_insert :
  exists q,
    push_all (empty_queue 64) [(1, 20); (2, 10)] = Return tt q /\
    dumpRawPriorities q = Return "[10 20]" q.
Proof. eexists. split; [lazy; reflexivity | vm_compute; reflexivity]. Qed.

Example keys_are_32_bit :
  exists q q' r r',
    push (empty_queue 64) 4294967295 456 = Return tt q /\
    pop q = Return (Some 4294967295) q' /\
    push q' 4294967296 456 = Return tt r /\
    pop r = Return (Some 0) r'.
Proof.
  do 4 eexists. split; [vm_compute; reflexivity|].
  split; [vm_compute; reflexivity|]. split; [vm_compute; reflexivity|].
  vm_compute; reflexivity.
Qed.

Example constructor_rejects_mismatched_batches :
  new 30 [1; 2] [3; 4; 5] Uint32Array Uint32Array =
  ConstructionThrows
    (JS.Error "Number of keys does not match number of priorities provided.") /\
  new 1 [1; 2] [50; 1] Uint32Array Uint32Array =
  ConstructionThrows (JS.Error "Capacity less than number of provided keys.").
Proof. split; reflexivity. Qed.

(** ** The heap invariant of push and pop *)



(** ** Pop order *)



(** ** push step by step *)



(** ** Errors and the empty queue *)

(** C4.  [push] on a full queue throws the capacity error before it
    touches anything: the state carried by the exception is the state
    before the call. *)
Theorem C4_push_full_throws s k p :
  length s = _capacity s ->
  push s k p =
  Throw (JS.Error "Heap has reached capacity, can't push new items") s.
Proof. intros H. unfold push. now rewrite (proj2 (Z.eqb_eq _ _) H). Qed.

Lemma C4_witness :
  push (empty_queue 1) 1 10 = Return tt full_queue /\
  length full_queue = _capacity full_queue /\
  push full_queue 2 20 =
  Throw (JS.Error "Heap has reached capacity, can't push new items") full_queue.
Proof.
  split; [reflexivity|]. split; [reflexivity|].
  apply (C4_push_full_throws full_queue 2 20). reflexivity.
Defined.

Lemma pop_empty s : length s = 0 -> pop s = Return JS.undefined s.
Proof. intros H. unfold pop. now rewrite (proj2 (Z.eqb_eq _ _) H). Qed.

(** C5.  [pop] on an empty queue returns [undefined] without an error and
    without touching the state: the state it returns with is the one it
    was called on, pending flag and both stores included. *)
Theorem C5_pop_empty s :
  length s = 0 -> pop s = Return JS.undefined s.
Proof. exact (pop_empty s). Qed.

Lemma C5_witness :
  pop full_queue = Return (Some 1) drained_queue /\
  length drained_queue = 0 /\
  pop drained_queue = Return JS.undefined drained_queue.
Proof.
  split; [reflexivity|]. split; [reflexivity|].
  apply (C5_pop_empty drained_queue). reflexivity.
Defined.

(** ** The dump *)

(** C6.  On an empty queue [dumpRawPriorities] does not return a string:
    [Array(this.length - ROOT_INDEX)] is [Array(-1)], which throws a
    [RangeError].  So it is on a fresh queue, and on one that [pop] has
    just emptied. *)
Theorem C6_dump_of_empty_queue_throws :
  new 64 [] [] Uint32Array Uint32Array = Constructed (empty_queue 64) /\
  dumpRawPriorities (empty_queue 64) =
  Throw (JS.RangeError "Invalid array length") (empty_queue 64) /\
  pop full_queue = Return (Some 1) drained_queue /\
  dumpRawPriorities drained_queue =
  Throw (JS.RangeError "Invalid array length")
    (with_hasPoppedElement drained_queue false).
Proof. repeat split; reflexivity. Qed.

(** C7.  The trace on a fresh queue of capacity 64: three pushes and the
    dump reads [10 20 30]; a fourth push and it reads [10 20 30 40]; [pop]
    returns key 1 and the dump then reads [20 40 30]. *)
Theorem C7_trace :
  exists q1 q2 q3 q4 q5 q6,
    new 64 [] [] Uint32Array Uint32Array = Constructed (empty_queue 64) /\
    push (empty_queue 64) 1 10 = Return tt q1 /\
    push q1 2 20 = Return tt q2 /\
    push q2 3 30 = Return tt q3 /\
    dumpRawPriorities q3 = Return "[10 20 30]" q3 /\
    push q3 4 40 = Return tt q4 /\
    dumpRawPriorities q4 = Return "[10 20 30 40]" q4 /\
    pop q4 = Return (Some 1) q5 /\
    _hasPoppedElement q5 = true /\
    dumpRawPriorities q5 = Return "[20 40 30]" q6 /\
    _hasPoppedElement q6 = false /\
    slice (snd <$> entries q6) ROOT_INDEX (length q6) = [20; 40; 30].
Proof.
  do 6 eexists. split; [reflexivity|].
  split; [lazy; reflexivity|]. split; [lazy; reflexivity|].
  split; [lazy; reflexivity|]. split; [vm_compute; reflexivity|].
  split; [lazy; reflexivity|]. split; [vm_compute; reflexivity|].
  split; [lazy; reflexivity|]. split; [reflexivity|].
  split; [vm_compute; reflexivity|]. split; reflexivity.
Qed.

(** ** Bulk construction *)

Lemma new_unfold c keys priorities K P :
  0 <= c ->
  List.length keys = List.length priorities ->
  Z.of_nat (List.length keys) <= c ->
  new c keys priorities K P =
  match
    heapify_loop (Z.to_nat (JS.ushr (Z.of_nat (List.length keys)) 1))
      (copied c keys priorities K P)
  with
  | Some s => Constructed s
  | None => ConstructionOutOfFuel
  end.
Proof.
  intros Hc Hn Hle. unfold new, copied.
  destruct (Z.ltb_spec (c + ROOT_INDEX) 0); [unfold ROOT_INDEX in *; lia|].
  rewrite Hn, Z.eqb_refl. simpl negb. cbv iota. rewrite <- Hn.
  destruct (Z.ltb_spec c (Z.of_nat (List.length keys))); [lia|].
  now destruct (copy_loop _ _ _ _).
Qed.



(** ** popPush *)



(** ** Room for the pending deletion *)

(** C10.  In every reachable state a pending deletion implies
    length < capacity; position
    length+1 is then inside both stores, and a [push] in that state does
    not throw and ends with the length within the capacity and the stores
    at their size (with a capacity below 2^31 it does return). *)
Theorem C10_pending_leaves_room s :
  reachable s -> _hasPoppedElement s = true ->
  length s < _capacity s /\
  (exists k p,
      get (_keys s) (length s + ROOT_INDEX) = Some k /\
      get (_priorities s) (length s + ROOT_INDEX) = Some p) /\
  (forall k p,
      (forall e s', push s k p <> Throw e s') /\
      (forall s', push s k p = Return tt s' ->
         length s' = length s + 1 /\ length s' <= _capacity s' /\
         List.length (data (_keys s')) = Z.to_nat (_capacity s' + 1) /\
         List.length (data (_priorities s')) = Z.to_nat (_capacity s' + 1)) /\
      (_capacity s < 2 ^ 31 -> exists s', push s k p = Return tt s')).
Proof.
  intros Hr Hflag.
  pose proof (reachable_bounds s Hr) as Hb.
  pose proof Hb as [B1 B2 B3 B4 B5]. specialize (B5 Hflag).
  split; [done|]. split.
  - unfold ROOT_INDEX. eexists _, _.
    split; apply get_in_range; lia.
  - intros k p. split; [|split].
    + intros e s' H. unfold push in H.
      destruct (Z.eqb_spec (length s) (_capacity s)); [lia|].
      rewrite Hflag in H. now destruct (bubbleDown _ _).
    + intros s' Hpush.
      assert (Hcall : call (Push k p) s s') by (simpl; now rewrite Hpush).
      pose proof (call_bounds _ _ _ Hb Hcall) as [C1 C2 C3 C4 C5].
      repeat (split; [|done || lia]).
      unfold push in Hpush.
      destruct (Z.eqb_spec (length s) (_capacity s)); [lia|].
      rewrite Hflag in Hpush.
      destruct (bubbleDown _ _) as [s2|] eqn:Hdown; [|discriminate].
      injection Hpush as <-.
      now apply bubbleDown_extent in Hdown as ((_ & H2 & _) & _).
    + intros Hlt.
      destruct (push_spec s k p (reachable_wf s Hr ltac:(lia)) ltac:(lia))
        as (s' & Hpush & _).
      now exists s'.
Qed.

Lemma C10_witness :
  reachable drained_queue /\ _hasPoppedElement drained_queue = true /\
  length drained_queue < _capacity drained_queue /\
  (exists k p,
      get (_keys drained_queue) (length drained_queue + ROOT_INDEX) = Some k /\
      get (_priorities drained_queue) (length drained_queue + ROOT_INDEX) = Some p) /\
  (forall k p,
      (forall e s', push drained_queue k p <> Throw e s') /\
      (forall s', push drained_queue k p = Return tt s' ->
         length s' = length drained_queue + 1 /\ length s' <= _capacity s' /\
         List.length (data (_keys s')) = Z.to_nat (_capacity s' + 1) /\
         List.length (data (_priorities s')) = Z.to_nat (_capacity s' + 1)) /\
      (_capacity drained_queue < 2 ^ 31 ->
       exists s', push drained_queue k p = Return tt s')).
Proof.
  split; [exact reachable_drained_queue|]. split; [reflexivity|].
  apply (C10_pending_leaves_room drained_queue);
    [exact reachable_drained_queue | reflexivity].
Defined.

(** * Further properties of the class *)

(** ** The constructor *)

(** X1.  The constructor, for a capacity below 2^31, builds a queue
    exactly when the two batches have the same length and fit; it then has
    the size of the batches, the capacity and array kinds asked for and no
    deletion pending.  Otherwise it throws: it never fails to finish. *)
Theorem X1_constructor_accepts c keys priorities K P :
  c < 2 ^ 31 ->
  ((exists s, new c keys priorities K P = Constructed s) <->
   List.length keys = List.length priorities /\
   Z.of_nat (List.length keys) <= c) /\
  (forall s, new c keys priorities K P = Constructed s ->
     size s = Z.of_nat (List.length keys) /\ capacity s = c /\
     _hasPoppedElement s = false /\
     elt (_keys s) = K /\ elt (_priorities s) = P) /\
  (~ (List.length keys = List.length priorities /\
      Z.of_nat (List.length keys) <= c) ->
   exists e, new c keys priorities K P = ConstructionThrows e).
Proof.
  intros Hc. split; [split|split].
  - intros [s Hnew].
    now destruct (new_constructed _ _ _ _ _ _ Hnew) as (_ & Hn & Hle & _).
  - intros [Hn Hle].
    destruct (new_spec c keys priorities K P ltac:(lia) Hn Hle) as (s & Hnew & _).
    now exists s.
  - intros s Hnew.
    destruct (new_constructed _ _ _ _ _ _ Hnew) as (Hc0 & Hn & Hle & _).
    destruct (new_spec c keys priorities K P ltac:(lia) Hn Hle)
      as (s' & Hnew' & _ & Hflag & Hlen & Hcap & Hek & Hep & _).
    rewrite Hnew in Hnew'. injection Hnew' as <-. done.
  - intros Hnot. unfold new.
    destruct (c + ROOT_INDEX <? 0); [eauto|].
    destruct (Z.eqb_spec (Z.of_nat (List.length keys))
                (Z.of_nat (List.length priorities))) as [Hn|Hn]; [|simpl; eauto].
    simpl. destruct (Z.ltb_spec c (Z.of_nat (List.length keys))); [eauto|].
    exfalso. apply Hnot. split; lia.
Qed.

Lemma X1_witness :
  100 < 2 ^ 31 /\
  ((exists s, new 100 [1; 2] [50; 1] Int16Array Uint8Array = Constructed s) <->
   List.length [1; 2] = List.length [50; 1] /\
   Z.of_nat (List.length [1; 2]) <= 100) /\
  (forall s, new 100 [1; 2] [50; 1] Int16Array Uint8Array = Constructed s ->
     size s = Z.of_nat (List.length [1; 2]) /\ capacity s = 100 /\
     _hasPoppedElement s = false /\
     elt (_keys s) = Int16Array /\ elt (_priorities s) = Uint8Array) /\
  (~ (List.length [1; 2] = List.length [50; 1] /\
      Z.of_nat (List.length [1; 2]) <= 100) ->
   exists e, new 100 [1; 2] [50; 1] Int16Array Uint8Array = ConstructionThrows e).
Proof.
  split; [lia|].
  apply (X1_constructor_accepts 100 [1; 2] [50; 1] Int16Array Uint8Array). lia.
Defined.

(** ** Popping until the queue is empty *)





(** ** clear *)



(** ** peek, peekPriority and pop *)



Lemma removePoppedElement_settled s s1 :
  removePoppedElement s = Some s1 ->
  removePoppedElement s1 = Some s1 /\ length s1 = length s.
Proof.
  intros H.
  apply removePoppedElement_extent in H as (Hflag & (_ & Hlen & _) & _).
  unfold removePoppedElement. now rewrite Hflag.
Qed.

(** X6.  Looking does not disturb: in any state, once [peek] has
    returned, the state it leaves answers [peek], [peekPriority] and
    [dumpRawPriorities] exactly as the state before it would have, and so
    does [pop] when the queue is not empty; a second [peek] changes
    nothing. *)
Theorem X6_peek_settles s v s1 :
  peek s = Return v s1 ->
  peek s1 = Return v s1 /\
  peekPriority s1 = peekPriority s /\
  dumpRawPriorities s1 = dumpRawPriorities s /\
  (length s <> 0 -> pop s1 = pop s).
Proof.
  unfold peek. destruct (removePoppedElement s) as [s1'|] eqn:Hrm; [|discriminate].
  intros [= <- <-].
  destruct (removePoppedElement_settled s s1' Hrm) as (Hrm1 & Hlen).
  unfold peekPriority, dumpRawPriorities, pop.
  rewrite Hrm1, Hrm, Hlen. repeat (split; [done|]).
  intros Hnz. now destruct (Z.eqb_spec (length s) 0).
Qed.

Lemma X6_witness :
  pop pair_queue = Return (Some 1) pending_queue /\
  peek pending_queue = Return (Some 2) settled_queue /\
  peek settled_queue = Return (Some 2) settled_queue /\
  peekPriority settled_queue = peekPriority pending_queue /\
  dumpRawPriorities settled_queue = dumpRawPriorities pending_queue /\
  (length pending_queue <> 0 -> pop settled_queue = pop pending_queue).
Proof.
  split; [reflexivity|]. split; [reflexivity|].
  apply (X6_peek_settles pending_queue (Some 2) settled_queue).
  reflexivity.
Defined.







Lemma reachable_pending_queue : reachable pending_queue.
Proof.
  apply (reachable_call Pop pair_queue); [|reflexivity].
  exact reachable_pair_queue.
Qed.



(** ** Invariants of every reachable state *)

(** X11.  Whatever the capacity, in every reachable state the size is
    between 0 and the capacity, and each store has capacity + 1
    elements. *)
Theorem X11_size_within_capacity s :
  reachable s ->
  0 <= size s <= capacity s /\
  List.length (data (_keys s)) = Z.to_nat (capacity s + 1) /\
  List.length (data (_priorities s)) = Z.to_nat (capacity s + 1).
Proof. intros Hr. now destruct (reachable_bounds s Hr). Qed.

Lemma X11_witness :
  reachable pending_queue /\
  0 <= size pending_queue <= capacity pending_queue /\
  List.length (data (_keys pending_queue))
  = Z.to_nat (capacity pending_queue + 1) /\
  List.length (data (_priorities pending_queue))
  = Z.to_nat (capacity pending_queue + 1).
Proof.
  split; [exact reachable_pending_queue|].
  apply (X11_size_within_capacity pending_queue). exact reachable_pending_queue.
Defined.

Lemma removePoppedElement_kinds s s1 :
  removePoppedElement s = Some s1 ->
  _capacity s1 = _capacity s /\
  elt (_keys s1) = elt (_keys s) /\
  elt (_priorities s1) = elt (_priorities s) /\
  List.length (data (_keys s1)) = List.length (data (_keys s)) /\
  List.length (data (_priorities s1)) = List.length (data (_priorities s)).
Proof.
  intros H.
  apply removePoppedElement_extent in H
      as (_ & (H1 & _ & _ & H4 & H5) & H6 & H7).
  simpl in *. done.
Qed.

Lemma call_kinds m s s' :
  call m s s' ->
  _capacity s' = _capacity s /\
  elt (_keys s') = elt (_keys s) /\
  elt (_priorities s') = elt (_priorities s) /\
  List.length (data (_keys s')) = List.length (data (_keys s)) /\
  List.length (data (_priorities s')) = List.length (data (_priorities s)).
Proof.
  destruct m as [k p| | | | |]; simpl.
  - unfold push. destruct (length s =? _capacity s); simpl; [now intros <-|].
    destruct (_hasPoppedElement s).
    + destruct (bubbleDown _ _) as [s2|] eqn:Hdown; simpl; [|done]. intros <-.
      apply bubbleDown_extent in Hdown as ((H1 & _ & _ & H4 & H5) & H6 & H7).
      simpl in *. rewrite ?elt_set, ?length_set, ?length_insert in *. done.
    + destruct (bubbleUp _ _) as [s2|] eqn:Hup; simpl; [|done]. intros <-.
      apply bubbleUp_extent in Hup as ((H1 & _ & _ & H4 & H5) & H6 & H7).
      simpl in *. rewrite ?elt_set, ?length_set, ?length_insert in *. done.
  - unfold pop. destruct (length s =? 0); simpl; [now intros <-|].
    destruct (removePoppedElement s) as [s1|] eqn:Hrm; simpl; [|done]. intros <-.
    now apply removePoppedElement_kinds in Hrm.
  - unfold peek.
    destruct (removePoppedElement s) as [s1|] eqn:Hrm; simpl; [|done]. intros <-.
    now apply removePoppedElement_kinds in Hrm.
  - unfold peekPriority.
    destruct (removePoppedElement s) as [s1|] eqn:Hrm; simpl; [|done]. intros <-.
    now apply removePoppedElement_kinds in Hrm.
  - now intros <-.
  - unfold dumpRawPriorities.
    destruct (removePoppedElement s) as [s1|] eqn:Hrm; simpl; [|done].
    apply removePoppedElement_kinds in Hrm.
    destruct (JS.Array _); simpl; now intros <-.
Qed.

(** X12.  No method call, on any state, changes the capacity, the kind
    of either array or the number of elements of either store. *)
Theorem X12_calls_keep_the_stores_extent m s s' :
  call m s s' ->
  capacity s' = capacity s /\
  elt (_keys s') = elt (_keys s) /\
  elt (_priorities s') = elt (_priorities s) /\
  List.length (data (_keys s')) = List.length (data (_keys s)) /\
  List.length (data (_priorities s')) = List.length (data (_priorities s)).
Proof. exact (call_kinds m s s'). Qed.

Lemma X12_witness :
  call (Push 3 4) pending_queue refilled_queue /\
  capacity refilled_queue = capacity pending_queue /\
  elt (_keys refilled_queue) = elt (_keys pending_queue) /\
  elt (_priorities refilled_queue) = elt (_priorities pending_queue) /\
  List.length (data (_keys refilled_queue))
  = List.length (data (_keys pending_queue)) /\
  List.length (data (_priorities refilled_queue))
  = List.length (data (_priorities pending_queue)).
Proof.
  split; [reflexivity|].
  apply (X12_calls_keep_the_stores_extent (Push 3 4) pending_queue).
  reflexivity.
Defined.

Lemma removePoppedElement_slot0 s s1 :
  wf s -> removePoppedElement s = Some s1 ->
  entries s1 !! 0%nat = entries s !! 0%nat.
Proof.
  intros [Hs Hlen Hpend Hheap]. unfold removePoppedElement.
  destruct (_hasPoppedElement s) eqn:Hflag; [|now intros [= <-]].
  specialize (Hpend eq_refl). unfold ROOT_INDEX in *.
  set (w := write s 1 _ _).
  assert (Hw : shape w) by now apply shape_write.
  destruct (bubbleDown_spec w 1 Hw ltac:(simpl; lia)
              ltac:(pose proof (shape_capacity s Hs); simpl; lia))
    as (s2 & -> & _ & _ & _ & _ & Hout).
  { intros j Hj Hn. unfold w. rewrite !pri_write_ne by zlia.
    apply Hheap; [lia|]. unfold occupied. rewrite Hflag. simpl in Hn. lia. }
  intros [= <-]. change (entries (with_hasPoppedElement s2 false)) with (entries s2).
  rewrite Hout by (simpl; lia). unfold w.
  rewrite entries_write by lia. now rewrite list_lookup_insert_ne by lia.
Qed.

Lemma push_slot0 s k p s' :
  wf s -> push s k p = Return tt s' ->
  entries s' !! 0%nat = entries s !! 0%nat.
Proof.
  intros [Hs Hlen Hpend Hheap]. unfold push.
  destruct (Z.eqb_spec (length s) (_capacity s)) as [|Hfull]; [done|].
  pose proof (shape_capacity s Hs) as Hcap. unfold ROOT_INDEX in *.
  destruct (_hasPoppedElement s) eqn:Hflag; cbv zeta.
  - change (length (write s 1 (Some k) (Some p))) with (length s).
    set (s1 := with_length (write s 1 (Some k) (Some p)) (length s + 1)).
    assert (Hs1 : shape s1) by now apply shape_with_length, shape_write.
    destruct (bubbleDown_spec s1 1 Hs1 ltac:(simpl; lia) ltac:(simpl; lia))
      as (s2 & -> & _ & _ & _ & _ & Hout).
    { intros j Hj Hn. unfold s1, pri. simpl.
      rewrite !get_set_ne by zlia. apply Hheap; [lia|].
      unfold occupied. rewrite Hflag. exact Hn. }
    intros [= <-].
    change (entries (with_hasPoppedElement s2 false)) with (entries s2).
    rewrite Hout by (simpl; lia).
    change (entries s1) with (entries (write s 1 (Some k) (Some p))).
    rewrite entries_write by lia. now rewrite list_lookup_insert_ne by lia.
  - change (length (write s (length s + 1) (Some k) (Some p))) with (length s).
    set (s1 := with_length (write s (length s + 1) (Some k) (Some p)) (length s + 1)).
    assert (Hs1 : shape s1) by now apply shape_with_length, shape_write.
    destruct (bubbleUp_spec s1 Hs1 ltac:(simpl; lia))
      as (s2 & Hrun & _ & _ & _ & _ & Hout).
    { intros j Hj Hn. unfold s1, pri, ROOT_INDEX in *. simpl in *.
      rewrite !get_set_ne by zlia. apply Hheap; [done|].
      unfold occupied. rewrite Hflag. lia. }
    simpl in Hrun. rewrite Hrun. intros [= <-].
    rewrite Hout by (simpl; lia).
    change (entries s1)
      with (entries (write s (length s + 1) (Some k) (Some p))).
    rewrite entries_write by lia. now rewrite list_lookup_insert_ne by lia.
Qed.

Lemma call_slot0 m s s' :
  wf s -> call m s s' -> entries s' !! 0%nat = entries s !! 0%nat.
Proof.
  intros Hwf. destruct m as [k p| | | | |]; simpl.
  - destruct (push s k p) as [[] r|e r|] eqn:Hpush; simpl; [| |done].
    + intros <-. now apply (push_slot0 s k p).
    + intros <-. unfold push in Hpush.
      destruct (length s =? _capacity s); [now injection Hpush as _ <-|].
      destruct (_hasPoppedElement s);
        [destruct (bubbleDown _ _) | destruct (bubbleUp _ _)]; discriminate.
  - unfold pop. destruct (length s =? 0); simpl; [now intros <-|].
    destruct (removePoppedElement s) as [s1|] eqn:Hrm; simpl; [|done]. intros <-.
    now apply (removePoppedElement_slot0 s s1).
  - unfold peek.
    destruct (removePoppedElement s) as [s1|] eqn:Hrm; simpl; [|done]. intros <-.
    now apply (removePoppedElement_slot0 s s1).
  - unfold peekPriority.
    destruct (removePoppedElement s) as [s1|] eqn:Hrm; simpl; [|done]. intros <-.
    now apply (removePoppedElement_slot0 s s1).
  - now intros <-.
  - unfold dumpRawPriorities.
    destruct (removePoppedElement s) as [s1|] eqn:Hrm; simpl; [|done].
    apply (removePoppedElement_slot0 s s1 Hwf) in Hrm.
    destruct (JS.Array _); simpl; now intros <-.
Qed.

Lemma new_slot0 c keys priorities K P s :
  c < 2 ^ 31 -> new c keys priorities K P = Constructed s ->
  entries s !! 0%nat = Some (0, 0).
Proof.
  intros Hc Hnew.
  destruct (new_constructed _ _ _ _ _ _ Hnew) as (Hc0 & Hn & Hle & _).
  rewrite new_unfold in Hnew by done.
  unfold copied in Hnew. rewrite copy_loop_split in Hnew.
  rewrite ushr_1 in Hnew by lia.
  set (s0 := {| _capacity := c; _keys := _; _priorities := _; length := _;
                _hasPoppedElement := false |}) in Hnew.
  assert (Hs0 : shape s0) by (apply shape_alloc_copy; lia).
  destruct (heapify_loop_spec (Z.to_nat (Z.of_nat (List.length keys) / 2)) s0 Hs0)
    as (s2 & Hrun & _ & _ & _ & _ & Hout).
  { simpl. lia. }
  { simpl. zlia. }
  { intros j Hj Hjn. simpl in *. zlia. }
  rewrite Hrun in Hnew. injection Hnew as <-.
  rewrite Hout by lia. unfold entries, s0. simpl.
  rewrite lookup_zip_with.
  destruct (copy_one_spec keys (alloc K (c + ROOT_INDEX)) (List.length keys))
    as (_ & _ & _ & Hk).
  destruct (copy_one_spec priorities (alloc P (c + ROOT_INDEX)) (List.length keys))
    as (_ & _ & _ & Hp).
  simpl in Hk, Hp. rewrite length_replicate in Hk, Hp. unfold ROOT_INDEX in *.
  rewrite (Hk ltac:(lia) 0%nat), (Hp ltac:(lia) 0%nat).
  destruct (decide (1 <= 0 <= List.length keys)%nat); [lia|].
  rewrite lookup_replicate_2 by lia. done.
Qed.

(** X13.  Position 0 of the two stores is never written: in every
    reachable state (capacity below 2^31) both stores still hold there the
    0 they were allocated with. *)
Theorem X13_position_zero_is_never_written s :
  reachable s -> _capacity s < 2 ^ 31 ->
  get (_keys s) 0 = Some 0 /\ get (_priorities s) 0 = Some 0.
Proof.
  intros Hr Hc.
  assert (H : entries s !! 0%nat = Some (0, 0)).
  { induction Hr as [c keys priorities K P s Hnew | m s s' Hr IH Hcall].
    - destruct (new_constructed _ _ _ _ _ _ Hnew) as (_ & _ & _ & Hcap).
      apply (new_slot0 c keys priorities K P); [lia | done].
    - pose proof (call_capacity m s s' Hcall) as Hcap.
      rewrite (call_slot0 m s s'); [apply IH; lia | | done].
      apply reachable_wf; [done | lia]. }
  pose proof (reachable_wf s Hr Hc) as [Hs Hlen _ _].
  pose proof (shape_capacity s Hs).
  change 0%nat with (Z.to_nat 0) in H.
  rewrite (entries_lookup s 0) in H by (done || lia). injection H as Hk Hp.
  rewrite (get_key s 0), (get_pri s 0) by (done || lia). now rewrite Hk, Hp.
Qed.

Lemma X13_witness :
  (reachable refilled_queue /\ _capacity refilled_queue < 2 ^ 31) /\
  get (_keys refilled_queue) 0 = Some 0 /\
  get (_priorities refilled_queue) 0 = Some 0.
Proof.
  assert (Hr : reachable refilled_queue).
  { apply (reachable_call (Push 3 4) pending_queue); [|reflexivity].
    apply (reachable_call Pop pair_queue); [|reflexivity].
    exact reachable_pair_queue. }
  split; [split; [exact Hr | simpl; lia]|].
  apply (X13_position_zero_is_never_written refilled_queue);
    [exact Hr | simpl; lia].
Defined.

(** ** The range of what the queue hands out *)

Lemma fixed_in_range k x : coerce k x = x -> in_range k x.
Proof.
  destruct k; unfold coerce, wrap_signed, wrap_unsigned, in_range;
    intros H; zlia.
Qed.

(** X14.  Every element of a reachable queue's stores (capacity below
    2^31) is within the range of its array kind; so every key [pop] or
    [peek] returns and every priority [peekPriority] returns is. *)
Theorem X14_values_within_the_array_range s :
  reachable s -> _capacity s < 2 ^ 31 ->
  Forall (in_range (elt (_keys s))) (data (_keys s)) /\
  Forall (in_range (elt (_priorities s))) (data (_priorities s)) /\
  (forall k s', pop s = Return (Some k) s' -> in_range (elt (_keys s)) k) /\
  (forall k s', peek s = Return (Some k) s' -> in_range (elt (_keys s)) k) /\
  (forall p s', peekPriority s = Return (Some p) s' ->
     in_range (elt (_priorities s)) p).
Proof.
  intros Hr Hc.
  assert (Hall : forall r, reachable r -> _capacity r < 2 ^ 31 ->
            Forall (in_range (elt (_keys r))) (data (_keys r)) /\
            Forall (in_range (elt (_priorities r))) (data (_priorities r))).
  { intros r Hrr Hcr. pose proof (reachable_wf r Hrr Hcr) as [[_ _ _ Hk Hp] _ _ _].
    split; eapply Forall_impl; try eassumption; intros x; apply fixed_in_range. }
  assert (Hget : forall (m : method) r, call m s r ->
            (forall k, get (_keys r) ROOT_INDEX = Some k -> in_range (elt (_keys s)) k) /\
            (forall p, get (_priorities r) ROOT_INDEX = Some p ->
               in_range (elt (_priorities s)) p)).
  { intros m r Hcall.
    pose proof (call_capacity m s r Hcall) as Hcap.
    destruct (call_kinds m s r Hcall) as (_ & Hek & Hep & _).
    destruct (Hall r (reachable_call m s r Hr Hcall) ltac:(lia)) as [Hk Hp].
    rewrite Hek in Hk. rewrite Hep in Hp. unfold get, ROOT_INDEX. simpl.
    rewrite Forall_lookup in Hk, Hp. split; eauto. }
  destruct (Hall s Hr Hc) as [Hk Hp]. split; [done|]. split; [done|].
  split; [|split].
  - intros k s' Hpop.
    assert (Hcall : call Pop s s') by (simpl; now rewrite Hpop).
    apply (Hget Pop s' Hcall). unfold pop in Hpop.
    destruct (length s =? 0); [discriminate|].
    destruct (removePoppedElement s); [|discriminate].
    now injection Hpop as <- <-.
  - intros k s' Hpeek.
    assert (Hcall : call Peek s s') by (simpl; now rewrite Hpeek).
    apply (Hget Peek s' Hcall). unfold peek in Hpeek.
    destruct (removePoppedElement s); [|discriminate].
    now injection Hpeek as <- <-.
  - intros p s' Hpeek.
    assert (Hcall : call PeekPriority s s') by (simpl; now rewrite Hpeek).
    apply (Hget PeekPriority s' Hcall). unfold peekPriority in Hpeek.
    destruct (removePoppedElement s); [|discriminate].
    now injection Hpeek as <- <-.
Qed.

Lemma X14_witness :
  (reachable pending_queue /\ _capacity pending_queue < 2 ^ 31) /\
  Forall (in_range (elt (_keys pending_queue))) (data (_keys pending_queue)) /\
  Forall (in_range (elt (_priorities pending_queue)))
    (data (_priorities pending_queue)) /\
  (forall k s', pop pending_queue = Return (Some k) s' ->
     in_range (elt (_keys pending_queue)) k) /\
  (forall k s', peek pending_queue = Return (Some k) s' ->
     in_range (elt (_keys pending_queue)) k) /\
  (forall p s', peekPriority pending_queue = Return (Some p) s' ->
     in_range (elt (_priorities pending_queue)) p).
Proof.
  split; [split; [exact reachable_pending_queue | simpl; lia]|].
  apply (X14_values_within_the_array_range pending_queue);
    [exact reachable_pending_queue | simpl; lia].
Defined.

(** ** dumpRawPriorities on reachable queues *)





(** ** The two repair walks *)







(** ** The root and the rest *)



(** ** Runs of pushes *)






(** ** bubbleUp always comes back *)

Lemma bubbleUp_loop_returns fuel s p i :
  (Z.to_nat i < fuel)%nat -> is_Some (bubbleUp_loop fuel s p i).
Proof.
  revert s i. induction fuel as [|fuel IH]; intros s i Hfuel; [lia|].
  simpl. destruct (Z.ltb_spec ROOT_INDEX i) as [Hlt|]; [|eauto].
  unfold bubbleUp_body. destruct (JS.le _ _); [eauto|].
  apply IH. unfold ROOT_INDEX in Hlt. unfold JS.ushr, JS.ToUint32.
  rewrite Z.shiftr_div_pow2 by lia.
  change (2 ^ 32) with 4294967296. change (2 ^ 1) with 2. zlia.
Qed.

(** X22.  [bubbleUp] returns from every state and every index, in range
    or not (its index at least halves on every turn), and leaves the
    capacity, the length, the flag and the extent of the stores as they
    were. *)
Theorem X22_bubbleUp_always_returns s i :
  exists s',
    bubbleUp s i = Some s' /\
    _capacity s' = _capacity s /\ length s' = length s /\
    _hasPoppedElement s' = _hasPoppedElement s /\
    List.length (data (_keys s')) = List.length (data (_keys s)) /\
    List.length (data (_priorities s')) = List.length (data (_priorities s)).
Proof.
  assert (H : is_Some (bubbleUp s i)).
  { unfold bubbleUp.
    destruct (bubbleUp_loop_returns (S (Z.to_nat i)) s (get (_priorities s) i) i
                ltac:(lia)) as [[s1 i1] ->]. eauto. }
  destruct H as [s' H]. exists s'. split; [done|].
  now apply bubbleUp_extent in H as ((H1 & H2 & H3 & _) & H4 & H5).
Qed.

(** ** push seen through peekPriority *)



(** ** The pending flag *)

(** X24.  Only [pop] leaves a deletion pending.  On any state: a [pop]
    that finds the queue not empty returns with the flag set; every
    [push], [peek], [peekPriority], [dumpRawPriorities] and [clear] that
    returns leaves it clear. *)
Theorem X24_only_pop_leaves_a_deletion_pending s :
  (forall v s', length s <> 0 -> pop s = Return v s' ->
     _hasPoppedElement s' = true /\ length s' = length s - 1) /\
  (forall k p s', push s k p = Return tt s' ->
     _hasPoppedElement s' = false /\ length s' = length s + 1) /\
  (forall v s', peek s = Return v s' ->
     _hasPoppedElement s' = false /\ length s' = length s) /\
  (forall v s', peekPriority s = Return v s' ->
     _hasPoppedElement s' = false /\ length s' = length s) /\
  (forall v s', dumpRawPriorities s = Return v s' ->
     _hasPoppedElement s' = false /\ length s' = length s) /\
  (forall s', clear s = Return tt s' ->
     _hasPoppedElement s' = false /\ length s' = 0).
Proof.
  repeat split.
  - unfold pop in H0. destruct (Z.eqb_spec (length s) 0); [done|].
    destruct (removePoppedElement s); [|discriminate]. now injection H0 as _ <-.
  - unfold pop in H0. destruct (Z.eqb_spec (length s) 0); [done|].
    destruct (removePoppedElement s) as [s1|] eqn:Hrm; [|discriminate].
    injection H0 as _ <-. simpl.
    apply removePoppedElement_extent in Hrm as (_ & (_ & Hlen & _) & _).
    simpl in Hlen. lia.
  - unfold push in H. destruct (length s =? _capacity s); [discriminate|].
    destruct (_hasPoppedElement s) eqn:Hflag.
    + destruct (bubbleDown _ _); [|discriminate]. now injection H as <-.
    + destruct (bubbleUp _ _) as [s2|] eqn:Hup; [|discriminate]. injection H as <-.
      apply bubbleUp_extent in Hup as ((_ & _ & H3 & _) & _). simpl in H3.
      congruence.
  - unfold push in H. destruct (length s =? _capacity s); [discriminate|].
    destruct (_hasPoppedElement s) eqn:Hflag.
    + destruct (bubbleDown _ _) as [s2|] eqn:Hdown; [|discriminate].
      injection H as <-.
      now apply bubbleDown_extent in Hdown as ((_ & H2 & _) & _).
    + destruct (bubbleUp _ _) as [s2|] eqn:Hup; [|discriminate]. injection H as <-.
      now apply bubbleUp_extent in Hup as ((_ & H2 & _) & _).
  - unfold peek in H. destruct (removePoppedElement s) as [s1|] eqn:Hrm; [|discriminate].
    injection H as _ <-. now apply removePoppedElement_extent in Hrm as (Hf & _).
  - unfold peek in H. destruct (removePoppedElement s) as [s1|] eqn:Hrm; [|discriminate].
    injection H as _ <-.
    now apply removePoppedElement_extent in Hrm as (_ & (_ & Hlen & _) & _).
  - unfold peekPriority in H.
    destruct (removePoppedElement s) as [s1|] eqn:Hrm; [|discriminate].
    injection H as _ <-. now apply removePoppedElement_extent in Hrm as (Hf & _).
  - unfold peekPriority in H.
    destruct (removePoppedElement s) as [s1|] eqn:Hrm; [|discriminate].
    injection H as _ <-.
    now apply removePoppedElement_extent in Hrm as (_ & (_ & Hlen & _) & _).
  - unfold dumpRawPriorities in H.
    destruct (removePoppedElement s) as [s1|] eqn:Hrm; [|discriminate].
    apply removePoppedElement_extent in Hrm as (Hf & _).
    destruct (JS.Array _); [discriminate|]. now injection H as _ <-.
  - unfold dumpRawPriorities in H.
    destruct (removePoppedElement s) as [s1|] eqn:Hrm; [|discriminate].
    apply removePoppedElement_extent in Hrm as (_ & (_ & Hlen & _) & _).
    destruct (JS.Array _); [discriminate|]. now injection H as _ <-.
  - now injection H as <-.
  - now injection H as <-.
Qed.

Lemma X24_witness :
  pop pair_queue = Return (Some 1) pending_queue /\
  push pending_queue 3 4 = Return tt refilled_queue /\
  (forall v s', length pair_queue <> 0 -> pop pair_queue = Return v s' ->
     _hasPoppedElement s' = true /\ length s' = length pair_queue - 1) /\
  (forall k p s', push pending_queue k p = Return tt s' ->
     _hasPoppedElement s' = false /\ length s' = length pending_queue + 1).
Proof.
  split; [reflexivity|]. split; [reflexivity|].
  split.
  - apply (X24_only_pop_leaves_a_deletion_pending pair_queue).
  - apply (X24_only_pop_leaves_a_deletion_pending pending_queue).
Defined.
